(** * DaGit: the object decoding pipeline of [gitutils.go]

    A shallow embedding of the header parser ([findFirstMatch], [getType],
    [getSize], [newObject]), the tree decoder ([parseTree]), the commit
    decoder ([parseCommit]) and the graph builder ([Object.toJson],
    [Repo.toJson]), followed by the properties of the decoding pipeline.

    Go values are modelled as follows.
    - [[]byte] and [string] are both [list byte]: a Go string is an immutable
      byte sequence and the code converts freely between the two.
    - [int] is [Z]; every index the code computes is bounded by the length of
      its input plus a small constant, so no wrap-around can occur.
    - A call either returns, or stops the program: by a run-time panic (index
      or slice bounds out of range) or through [log.Fatal].  The type
      [outcome] records which. *)

From Stdlib Require Import Strings.Byte Strings.String.
From Stdlib Require Import ZArith List Lia Bool.
Import ListNotations.
Local Open Scope Z_scope.

(** ** Outcomes of a Go call *)

Inductive outcome (A : Type) : Type :=
| Ok (a : A)   (* the call returns [a] *)
| Panic        (* run-time panic: index or slice bounds out of range *)
| Fatal        (* [log.Fatal]: the error is logged and the process exits *)
| Diverge.     (* a loop exceeded the step bound of the model *)

Arguments Ok {A} a.
Arguments Panic {A}.
Arguments Fatal {A}.
Arguments Diverge {A}.

Definition bind {A B : Type} (m : outcome A) (k : A -> outcome B) : outcome B :=
  match m with
  | Ok a => k a
  | Panic => Panic
  | Fatal => Fatal
  | Diverge => Diverge
  end.

Notation "x <- m ;; k" := (bind m (fun x => k))
  (at level 61, m at next level, right associativity).

Definition returns {A : Type} (m : outcome A) : Prop := exists a, m = Ok a.

Definition aborts {A : Type} (m : outcome A) : Prop := m = Panic \/ m = Fatal.

(** ** Bytes, strings and slices *)

Definition bytes := list byte.

Definition byte_val (b : byte) : Z := Z.of_N (Byte.to_N b).

Definition len (s : bytes) : Z := Z.of_nat (length s).

(** [s[lo:hi]]: panics unless [0 <= lo <= hi <= len(s)].  For a byte slice Go
    allows [hi] up to the capacity.  The one slice of the code that can pass
    the length is [obj.Content[5:45]] in [parseCommit]; the statement after
    it, [obj.Content[46:]], then has its lower bound past the length, so the
    call panics with or without spare capacity. *)
Definition slice (s : bytes) (lo hi : Z) : outcome bytes :=
  if (0 <=? lo) && (lo <=? hi) && (hi <=? len s)
  then Ok (firstn (Z.to_nat (hi - lo)) (skipn (Z.to_nat lo) s))
  else Panic.

(** [s[lo:]] *)
Definition slice_from (s : bytes) (lo : Z) : outcome bytes := slice s lo (len s).

(** [s[:hi]] *)
Definition slice_to (s : bytes) (hi : Z) : outcome bytes := slice s 0 hi.

Definition bytes_eqb (a b : bytes) : bool :=
  if list_eq_dec Byte.byte_eq_dec a b then true else false.

(** A string literal of the source. *)
Definition lit (s : string) : bytes := list_byte_of_string s.

(** ** The Go library functions the decoders call *)

Module Go.

(** *** [unicode/utf8] *)

Definition RuneError : Z := 0xFFFD.
Definition RuneSelf : Z := 0x80.
Definition UTFMax : Z := 4.

(** [utf8.DecodeRuneInString]: the first rune of [s] and its width in
    bytes; [(RuneError, 1)] for an invalid or incomplete encoding and
    [(RuneError, 0)] for the empty string. *)
Definition DecodeRuneInString (s : bytes) : Z * Z :=
  match s with
  | [] => (RuneError, 0)
  | s0 :: t0 =>
    let c0 := byte_val s0 in
    if c0 <? RuneSelf then (c0, 1)
    else if (c0 <? 0xC2) || (0xF4 <? c0) then (RuneError, 1)
    else
      let sz := if c0 <? 0xE0 then 2 else if c0 <? 0xF0 then 3 else 4 in
      let lo := if c0 =? 0xE0 then 0xA0 else if c0 =? 0xF0 then 0x90 else 0x80 in
      let hi := if c0 =? 0xED then 0x9F else if c0 =? 0xF4 then 0x8F else 0xBF in
      if len s <? sz then (RuneError, 1)
      else match t0 with
      | [] => (RuneError, 1)
      | s1 :: t1 =>
        let c1 := byte_val s1 in
        if (c1 <? lo) || (hi <? c1) then (RuneError, 1)
        else if sz <=? 2
        then (Z.lor (Z.shiftl (Z.land c0 0x1F) 6) (Z.land c1 0x3F), 2)
        else match t1 with
        | [] => (RuneError, 1)
        | s2 :: t2 =>
          let c2 := byte_val s2 in
          if (c2 <? 0x80) || (0xBF <? c2) then (RuneError, 1)
          else if sz <=? 3
          then (Z.lor (Z.lor (Z.shiftl (Z.land c0 0x0F) 12)
                             (Z.shiftl (Z.land c1 0x3F) 6))
                      (Z.land c2 0x3F), 3)
          else match t2 with
          | [] => (RuneError, 1)
          | s3 :: _ =>
            let c3 := byte_val s3 in
            if (c3 <? 0x80) || (0xBF <? c3) then (RuneError, 1)
            else (Z.lor (Z.lor (Z.lor (Z.shiftl (Z.land c0 0x07) 18)
                                      (Z.shiftl (Z.land c1 0x3F) 12))
                               (Z.shiftl (Z.land c2 0x3F) 6))
                        (Z.land c3 0x3F), 4)
          end
        end
      end
  end.

(** [utf8.RuneStart]: the byte is not a continuation byte. *)
Definition RuneStart (b : byte) : bool :=
  negb (Z.land (byte_val b) 0xC0 =? 0x80).

(** The backward search of [DecodeLastRuneInString] for a rune start, from
    [start] down to [lim]. *)
Fixpoint rune_start_back (steps : nat) (s : bytes) (start lim : Z) : Z :=
  match steps with
  | O => start
  | S steps' =>
    if start <? lim then start
    else match nth_error s (Z.to_nat start) with
         | Some b => if RuneStart b then start
                     else rune_start_back steps' s (start - 1) lim
         | None => start
         end
  end.

(** [utf8.DecodeLastRuneInString] *)
Definition DecodeLastRuneInString (s : bytes) : Z * Z :=
  let end_ := len s in
  if end_ =? 0 then (RuneError, 0)
  else
    let start := end_ - 1 in
    match nth_error s (Z.to_nat start) with
    | None => (RuneError, 0)
    | Some b =>
      let r := byte_val b in
      if r <? RuneSelf then (r, 1)
      else
        let lim := Z.max 0 (end_ - UTFMax) in
        let start := rune_start_back 4 s (start - 1) lim in
        let start := Z.max 0 start in
        let '(r, size) := DecodeRuneInString (skipn (Z.to_nat start) s) in
        if start + size =? end_ then (r, size) else (RuneError, 1)
    end.

(** *** [unicode.IsSpace] *)

Definition IsSpace (r : Z) : bool :=
  if r <=? 0xFF
  then (r =? 9) || (r =? 10) || (r =? 11) || (r =? 12) || (r =? 13)
       || (r =? 32) || (r =? 0x85) || (r =? 0xA0)
  else (r =? 0x1680) || ((0x2000 <=? r) && (r <=? 0x200A))
       || (r =? 0x2028) || (r =? 0x2029) || (r =? 0x202F)
       || (r =? 0x205F) || (r =? 0x3000).

(** *** [strings] *)

(** [for i, r := range s { if f(r) == truth { return i } }; return -1],
    entered at byte offset [i] with [s] the rest of the string. *)
Fixpoint indexFunc_from (steps : nat) (s : bytes) (i : Z)
         (f : Z -> bool) (truth : bool) : Z :=
  match steps with
  | O => -1
  | S steps' =>
    match s with
    | [] => -1
    | _ =>
      let '(r, size) := DecodeRuneInString s in
      if Bool.eqb (f r) truth then i
      else indexFunc_from steps' (skipn (Z.to_nat size) s) (i + size) f truth
    end
  end.

Definition indexFunc (s : bytes) (f : Z -> bool) (truth : bool) : Z :=
  indexFunc_from (length s) s 0 f truth.

(** [for i := len(s); i > 0; { r, size := DecodeLastRuneInString(s[0:i]);
    i -= size; if f(r) == truth { return i } }; return -1] *)
Fixpoint lastIndexFunc_from (steps : nat) (s : bytes) (i : Z)
         (f : Z -> bool) (truth : bool) : Z :=
  match steps with
  | O => -1
  | S steps' =>
    if 0 <? i then
      let '(r, size) := DecodeLastRuneInString (firstn (Z.to_nat i) s) in
      let i := i - size in
      if Bool.eqb (f r) truth then i
      else lastIndexFunc_from steps' s i f truth
    else -1
  end.

Definition lastIndexFunc (s : bytes) (f : Z -> bool) (truth : bool) : Z :=
  lastIndexFunc_from (S (length s)) s (len s) f truth.

Definition TrimLeftFunc (s : bytes) (f : Z -> bool) : bytes :=
  let i := indexFunc s f false in
  if i =? -1 then [] else skipn (Z.to_nat i) s.

Definition TrimRightFunc (s : bytes) (f : Z -> bool) : bytes :=
  let i := lastIndexFunc s f false in
  let i :=
    match (if 0 <=? i then nth_error s (Z.to_nat i) else None) with
    | Some b =>
      if RuneSelf <=? byte_val b
      then i + snd (DecodeRuneInString (skipn (Z.to_nat i) s))
      else i + 1
    | None => i + 1
    end in
  firstn (Z.to_nat i) s.

Definition TrimFunc (s : bytes) (f : Z -> bool) : bytes :=
  TrimRightFunc (TrimLeftFunc s f) f.

(** The [asciiSpace] table: ['\t'], ['\n'], ['\v'], ['\f'], ['\r'], [' ']. *)
Definition asciiSpace (b : byte) : bool :=
  let c := byte_val b in
  (c =? 9) || (c =? 10) || (c =? 11) || (c =? 12) || (c =? 13) || (c =? 32).

(** The second loop of [TrimSpace], run over the reversed string: drop
    ASCII white space from the end, handing over to [TrimRightFunc] at the
    first byte that is not ASCII. *)
Fixpoint TrimSpace_stop (rs : bytes) : bytes :=
  match rs with
  | [] => []
  | c :: rs' =>
    if RuneSelf <=? byte_val c then TrimRightFunc (rev rs) IsSpace
    else if asciiSpace c then TrimSpace_stop rs'
    else rev rs
  end.

(** [strings.TrimSpace]: ASCII fast path from both ends, the Unicode-aware
    [TrimFunc] from the first byte that is not ASCII. *)
Fixpoint TrimSpace (s : bytes) : bytes :=
  match s with
  | [] => []
  | c :: s' =>
    if RuneSelf <=? byte_val c then TrimFunc s IsSpace
    else if asciiSpace c then TrimSpace s'
    else TrimSpace_stop (rev s)
  end.

(** [strings.Split(s, "\n")] *)
Fixpoint Split_nl (s : bytes) : list bytes :=
  match s with
  | [] => [[]]
  | c :: s' =>
    if Byte.eqb c x0a then [] :: Split_nl s'
    else match Split_nl s' with
         | l :: ls => (c :: l) :: ls
         | [] => [[c]]
         end
  end.

(** *** [encoding/hex] *)

Definition hextable : bytes := lit "0123456789abcdef".

Definition hexdigit (v : Z) : byte := nth (Z.to_nat v) hextable x00.

(** [hex.EncodeToString] *)
Fixpoint EncodeToString (src : bytes) : bytes :=
  match src with
  | [] => []
  | v :: src' =>
    hexdigit (Z.shiftr (byte_val v) 4) :: hexdigit (Z.land (byte_val v) 0x0F)
      :: EncodeToString src'
  end.

End Go.

(** ** Data model of [gitutils.go] *)

Definition SPACE : byte := x20.
Definition NUL : byte := x00.

Module Edge.
Record t : Type := mk { Src : bytes; Dest : bytes }.
End Edge.

Module Object.
Record t : Type := mk {
  Type_ : bytes;
  Size : bytes;
  Location : bytes;
  Name : bytes;
  Content : bytes
}.
End Object.

Module TreeEntry.
Record t : Type := mk { Mode : bytes; Name : bytes; Hash : bytes }.
End TreeEntry.

Module Commit.
Record t : Type := mk { Tree : bytes; Parents : list bytes }.
End Commit.

(** [Repo.objects] is a Go map; [range] visits it in an order the language
    leaves unspecified.  The map is listed here in the order in which the
    [range] statement of the run at hand visits it. *)
Module Repo.
Record t : Type := mk { location : bytes; objects : list (bytes * Object.t) }.
End Repo.

(** ** Header parser *)

(** The body of [for i, this_byte := range data[start_index:]], where
    [data] is the slice behind the pointer. *)
Fixpoint findFirstMatch_range (match_byte : byte) (start_index : Z)
         (rest : bytes) (i : Z) : Z :=
  match rest with
  | [] => -1
  | this_byte :: rest' =>
    if Byte.eqb this_byte match_byte then start_index + i
    else findFirstMatch_range match_byte start_index rest' (i + 1)
  end.

Definition findFirstMatch (match_byte : byte) (start_index : Z) (data : bytes)
  : outcome Z :=
  rest <- slice_from data start_index ;;
  Ok (findFirstMatch_range match_byte start_index rest 0).

Definition getType (data : bytes) : outcome (bytes * Z) :=
  first_space_index <- findFirstMatch SPACE 0 data ;;
  type_ <- slice data 0 first_space_index ;;
  Ok (Go.TrimSpace type_, first_space_index).

Definition getSize (first_space_index : Z) (data : bytes) : outcome (bytes * Z) :=
  first_nul_index <- findFirstMatch NUL (first_space_index + 1) data ;;
  obj_size <- slice data first_space_index first_nul_index ;;
  Ok (Go.TrimSpace obj_size, first_nul_index + 1).

(** ** Object loader *)

(** What [newObject] calls outside this file: [os.ReadFile], the zlib reader
    ([zlib.NewReader] followed by [io.ReadAll]) and [filepath.Base] /
    [filepath.Dir].  [None] stands for a returned error. *)
Record Env : Type := mkEnv {
  ReadFile : bytes -> option bytes;
  inflate : bytes -> option bytes;
  Base : bytes -> bytes;
  Dir : bytes -> bytes
}.

Definition newObject (env : Env) (object_path : bytes) : outcome Object.t :=
  match ReadFile env object_path with
  | None => Fatal
  | Some zlib_bytes =>
    match inflate env zlib_bytes with
    | None => Fatal
    | Some bytes_ =>
      r1 <- getType bytes_ ;;
      let '(type_, first_space_index) := r1 in
      r2 <- getSize first_space_index bytes_ ;;
      let '(size, content_start_index) := r2 in
      let object_dir := Base env (Dir env object_path) in
      content <- slice_from bytes_ content_start_index ;;
      Ok (Object.mk type_ size object_path
                    (object_dir ++ Base env object_path) content)
    end
  end.

(** ** Tree decoder *)

(** [for obj.Content[i] != NUL && i < content_len-1 { i += 1 }], with [rest]
    the bytes of [obj.Content] from index [i] on: indexing an empty rest is
    out of range. *)
Fixpoint scan_name (rest : bytes) (i content_len : Z) : outcome Z :=
  match rest with
  | [] => Panic
  | b :: rest' =>
    if negb (Byte.eqb b NUL) && (i <? content_len - 1)
    then scan_name rest' (i + 1) content_len
    else Ok i
  end.

(** The loop [for stop <= content_len { switch entry_item {...} }]; [steps]
    bounds the number of iterations. *)
Fixpoint parseTree_loop (steps : nat) (Content : bytes)
         (entry_item start stop : Z) (mode name : bytes)
         (entries : list TreeEntry.t) : outcome (list TreeEntry.t) :=
  let content_len := len Content in
  if stop <=? content_len then
    match steps with
    | O => Diverge
    | S steps' =>
      if entry_item =? 1 then
        s <- slice Content start stop ;;
        parseTree_loop steps' Content (entry_item + 1) stop stop
                       (Go.TrimSpace s) name entries
      else if entry_item =? 2 then
        i <- (if start <? 0 then Panic
              else scan_name (skipn (Z.to_nat start) Content) start content_len) ;;
        s <- slice Content start i ;;
        parseTree_loop steps' Content (entry_item + 1) (i + 1) (i + 1 + 20)
                       mode (Go.TrimSpace s) entries
      else if entry_item =? 3 then
        s <- slice Content start stop ;;
        let hash := Go.TrimSpace (Go.EncodeToString s) in
        parseTree_loop steps' Content 1 stop (stop + 6) mode name
                       (entries ++ [TreeEntry.mk mode name hash])
      else
        parseTree_loop steps' Content entry_item start stop mode name entries
    end
  else Ok entries.

(** Three iterations decode one entry and each entry takes more than three
    bytes, so [3 * (len + 1)] iterations are never used up
    (lemma [parseTree_terminates]). *)
Definition parseTree_steps (Content : bytes) : nat := 3 * S (length Content).

Definition parseTree (obj : Object.t) : outcome (list TreeEntry.t) :=
  parseTree_loop (parseTree_steps (Object.Content obj)) (Object.Content obj)
                 1 0 6 [] [] [].

(** ** Commit decoder *)

(** [for _, line := range rest_of_content { ... }] *)
Fixpoint parseCommit_loop (rest_of_content : list bytes) (parents : list bytes)
  : outcome (list bytes) :=
  match rest_of_content with
  | [] => Ok parents
  | line :: rest =>
    head <- slice_to line 6 ;;
    if bytes_eqb head (lit "parent") then
      p <- slice line 7 47 ;;
      parseCommit_loop rest (parents ++ [p])
    else Ok parents
  end.

Definition parseCommit (obj : Object.t) : outcome Commit.t :=
  tree_hash <- slice (Object.Content obj) 5 45 ;;
  rest <- slice_from (Object.Content obj) 46 ;;
  parents <- parseCommit_loop (Go.Split_nl rest) [] ;;
  Ok (Commit.mk tree_hash parents).

(** ** Graph builder *)

(** The document [Object.toJson] returns.  [json.Marshal] cannot fail on the
    three values it is given (maps, structs, strings and byte slices only), so
    the document is kept as the value it was marshalled from; [JsonEmpty] is
    the zero-length byte slice of the [default] case. *)
Inductive Json : Type :=
| JsonEntries (entries : list TreeEntry.t)  (* {"entries": [...]} *)
| JsonCommit (c : Commit.t)                 (* {"tree": ..., "parents": [...]} *)
| JsonBlob (o : Object.t)                   (* the marshalled Object *)
| JsonEmpty.                                (* make([]byte, 0) *)

Definition Object_toJson (obj : Object.t) : outcome Json :=
  if bytes_eqb (Object.Type_ obj) (lit "tree") then
    entries <- parseTree obj ;; Ok (JsonEntries entries)
  else if bytes_eqb (Object.Type_ obj) (lit "commit") then
    c <- parseCommit obj ;; Ok (JsonCommit c)
  else if bytes_eqb (Object.Type_ obj) (lit "blob") then
    Ok (JsonBlob obj)
  else Ok JsonEmpty.

(** [err := json.Unmarshal(data, &objMap); if err != nil { log.Fatal(err) }]:
    a marshalled JSON object unmarshals into the map; zero bytes of input
    are a syntax error (unexpected end of JSON input). *)
Definition Unmarshal (data : Json) : outcome Json :=
  match data with
  | JsonEmpty => Fatal
  | _ => Ok data
  end.

Module Node.
Record t : Type := mk { name : bytes; type : bytes; object : Json }.
End Node.

Module Graph.
Record t : Type := mk { nodes : list Node.t; edges : list Edge.t }.
End Graph.

(** The body of [for _, obj := range r.objects]. *)
Definition Repo_toJson_visit (g : Graph.t) (obj : Object.t) : outcome Graph.t :=
  data <- Object_toJson obj ;;
  objMap <- Unmarshal data ;;
  let nodes := Graph.nodes g
                 ++ [Node.mk (Object.Name obj) (Object.Type_ obj) objMap] in
  let edges := Graph.edges g in
  if bytes_eqb (Object.Type_ obj) (lit "commit") then
    commit <- parseCommit obj ;;
    let edges := edges ++ map (fun p => Edge.mk (Object.Name obj) p)
                              (Commit.Parents commit) in
    let edges := edges ++ [Edge.mk (Object.Name obj) (Commit.Tree commit)] in
    Ok (Graph.mk nodes edges)
  else if bytes_eqb (Object.Type_ obj) (lit "tree") then
    entries <- parseTree obj ;;
    let edges := edges ++ map (fun entry => Edge.mk (Object.Name obj)
                                                    (TreeEntry.Hash entry))
                              entries in
    Ok (Graph.mk nodes edges)
  else Ok (Graph.mk nodes edges).

Fixpoint Repo_toJson_loop (objs : list Object.t) (g : Graph.t) : outcome Graph.t :=
  match objs with
  | [] => Ok g
  | obj :: objs' => g' <- Repo_toJson_visit g obj ;; Repo_toJson_loop objs' g'
  end.

(** [Repo.toJson], up to the final [json.Marshal] of the node and edge lists
    (which cannot fail on them). *)
Definition Repo_toJson (r : Repo.t) : outcome Graph.t :=
  Repo_toJson_loop (map snd (Repo.objects r)) (Graph.mk [] []).

(** ** Reference definitions for the tree format

    The on-disk grammar of a tree body and the delimiter-scanning decoder of
    the design document, against which [parseTree] is compared. *)

(** One entry as stored: mode, name and the 20 raw hash bytes. *)
Module RawEntry.
Record t : Type := mk { mode : bytes; name : bytes; hash : bytes }.
End RawEntry.

Definition encode_entry (e : RawEntry.t) : bytes :=
  RawEntry.mode e ++ [SPACE] ++ RawEntry.name e ++ [NUL] ++ RawEntry.hash e.

Definition encode_tree (es : list RawEntry.t) : bytes :=
  concat (map encode_entry es).

(** The entry a faithful decoder returns for a stored entry. *)
Definition entry_of (e : RawEntry.t) : TreeEntry.t :=
  TreeEntry.mk (RawEntry.mode e) (RawEntry.name e)
               (Go.EncodeToString (RawEntry.hash e)).

(** The grammar: no space inside a mode, no zero byte inside a name, 20 hash
    bytes. *)
Definition valid_entry (e : RawEntry.t) : Prop :=
  ~ In SPACE (RawEntry.mode e) /\ ~ In NUL (RawEntry.name e)
  /\ length (RawEntry.hash e) = 20%nat.

(** The bytes before the first [d], and the bytes after it. *)
Fixpoint scan_to (d : byte) (s : bytes) : option (bytes * bytes) :=
  match s with
  | [] => None
  | c :: s' =>
    if Byte.eqb c d then Some ([], s')
    else match scan_to d s' with
         | Some (l, r) => Some (c :: l, r)
         | None => None
         end
  end.

(** The decoder of the design document: MODE scans to the next space, NAME
    to the next zero byte, HASH reads 20 bytes; [None] is [TruncatedTree]. *)
Fixpoint scanTree (steps : nat) (body : bytes) : option (list TreeEntry.t) :=
  match body with
  | [] => Some []
  | _ =>
    match steps with
    | O => None
    | S steps' =>
      match scan_to SPACE body with
      | None => None
      | Some (mode, r1) =>
        match scan_to NUL r1 with
        | None => None
        | Some (name, r2) =>
          if (length r2 <? 20)%nat then None
          else match scanTree steps' (skipn 20 r2) with
               | None => None
               | Some es =>
                 Some (TreeEntry.mk mode name (Go.EncodeToString (firstn 20 r2))
                         :: es)
               end
        end
      end
    end
  end.

Definition scanTree_body (body : bytes) : option (list TreeEntry.t) :=
  scanTree (length body) body.

(** [hex.DecodeString], the inverse of [hex.EncodeToString]; [None] is a
    returned error. *)
Definition fromHexChar (c : byte) : option Z :=
  let v := byte_val c in
  if (48 <=? v) && (v <=? 57) then Some (v - 48)
  else if (97 <=? v) && (v <=? 102) then Some (v - 97 + 10)
  else if (65 <=? v) && (v <=? 70) then Some (v - 65 + 10)
  else None.

Fixpoint DecodeString (s : bytes) : option bytes :=
  match s with
  | [] => Some []
  | p :: q :: s' =>
    match fromHexChar p, fromHexChar q, DecodeString s' with
    | Some a, Some b, Some r =>
      match Byte.of_N (Z.to_N (Z.lor (Z.shiftl a 4) b)) with
      | Some v => Some (v :: r)
      | None => None
      end
    | _, _, _ => None
    end
  | _ => None
  end.

(** Re-encoding of decoded entries: mode, space, name, zero byte and the 20
    raw bytes the hash stands for. *)
Definition reencode_entry (d : TreeEntry.t) : option bytes :=
  match DecodeString (TreeEntry.Hash d) with
  | Some raw =>
    if (length raw =? 20)%nat
    then Some (TreeEntry.Mode d ++ [SPACE] ++ TreeEntry.Name d ++ [NUL] ++ raw)
    else None
  | None => None
  end.

Fixpoint reencode_tree (ds : list TreeEntry.t) : option bytes :=
  match ds with
  | [] => Some []
  | d :: ds' =>
    match reencode_entry d, reencode_tree ds' with
    | Some b, Some r => Some (b ++ r)
    | _, _ => None
    end
  end.

(** ** Predicates on byte strings *)

(** An ASCII byte that is not white space. *)
Definition clean (c : byte) : bool :=
  (byte_val c <? Go.RuneSelf) && negb (Go.asciiSpace c).

(** The string begins, or ends, with an ASCII white-space byte. *)
Definition starts_ws (s : bytes) : Prop :=
  exists c t, s = c :: t /\ Go.asciiSpace c = true.

Definition ends_ws (s : bytes) : Prop :=
  exists t c, s = t ++ [c] /\ Go.asciiSpace c = true.

Definition ws_edge (s : bytes) : Prop := starts_ws s \/ ends_ws s.

(** A mode as git writes it: 5 or 6 ASCII bytes, none of them white space. *)
Definition git_mode (m : bytes) : Prop :=
  (length m = 5%nat \/ length m = 6%nat) /\ Forall (fun c => clean c = true) m.

(** An entry of a tree body whose fields the fixed-width decoder reads back
    unchanged. *)
Definition plain_entry (e : RawEntry.t) : Prop :=
  git_mode (RawEntry.mode e)
  /\ ~ In NUL (RawEntry.name e)
  /\ Go.TrimSpace (RawEntry.name e) = RawEntry.name e
  /\ length (RawEntry.hash e) = 20%nat.

Definition tree_object (name body : bytes) : Object.t :=
  Object.mk (lit "tree") [] [] name body.

Definition commit_object (name body : bytes) : Object.t :=
  Object.mk (lit "commit") [] [] name body.

(** ** What the tree decoder reads *)

(** The six bytes [parseTree] reads as the mode, and the bytes it then reads
    as the name. *)
Definition mode_window (e : RawEntry.t) : bytes :=
  firstn 6 (RawEntry.mode e ++ [SPACE]).

Definition name_window (e : RawEntry.t) : bytes :=
  skipn 6 (RawEntry.mode e ++ [SPACE] ++ RawEntry.name e).

(** The entry [parseTree] returns for a stored entry. *)
Definition read_entry (e : RawEntry.t) : TreeEntry.t :=
  TreeEntry.mk (Go.TrimSpace (mode_window e)) (Go.TrimSpace (name_window e))
               (Go.EncodeToString (RawEntry.hash e)).

(** A stored entry whose mode is 5 or 6 bytes long. *)
Definition fixed_entry (e : RawEntry.t) : Prop :=
  (length (RawEntry.mode e) = 5%nat \/ length (RawEntry.mode e) = 6%nat)
  /\ ~ In NUL (RawEntry.name e)
  /\ length (RawEntry.hash e) = 20%nat.

(** ** The commit format *)

Definition NL : byte := x0a.

Definition is_hex (c : byte) : bool :=
  let v := byte_val c in
  ((48 <=? v) && (v <=? 57)) || ((97 <=? v) && (v <=? 102)).

(** An object identifier: 40 lowercase hexadecimal characters. *)
Definition object_id (s : bytes) : Prop :=
  length s = 40%nat /\ Forall (fun c => is_hex c = true) s.

Definition parent_line (p : bytes) : bytes := lit "parent " ++ p ++ [NL].

(** The first lines of a commit body: the tree line and the parent lines. *)
Definition commit_header (tree : bytes) (parents : list bytes) : bytes :=
  lit "tree " ++ tree ++ [NL] ++ concat (map parent_line parents).

(** ** Sample objects *)

Definition hash_a : bytes := repeat x1a 20.
Definition hash_b : bytes := repeat xff 20.

Definition entry_file : RawEntry.t := RawEntry.mk (lit "100644") (lit "a.txt") hash_a.
Definition entry_dir : RawEntry.t := RawEntry.mk (lit "40000") (lit "b") hash_b.

(** A directory whose name ends with a space, a file whose name begins with
    one, and an entry with a three-character mode. *)
Definition entry_trailing : RawEntry.t := RawEntry.mk (lit "40000") (lit "b ") hash_b.
Definition entry_leading : RawEntry.t := RawEntry.mk (lit "100644") (lit " a") hash_a.
Definition entry_short_mode : RawEntry.t := RawEntry.mk (lit "644") (lit "a") hash_a.

(** One whole entry followed by an entry cut after four hash bytes. *)
Definition body_cut : bytes :=
  encode_tree [entry_file] ++ firstn 12 (encode_entry entry_dir).

Definition id_t : bytes := lit "0123456789abcdef0123456789abcdef01234567".
Definition id_p1 : bytes := lit "aaaaaaaaaaaaaaaaaaaaaaaaaaaaaaaaaaaaaaaa".
Definition id_p2 : bytes := lit "bbbbbbbbbbbbbbbbbbbbbbbbbbbbbbbbbbbbbbbb".

Definition merge_commit_body : bytes :=
  commit_header id_t [id_p1; id_p2]
    ++ lit "author A U Thor <author@example.com> 1 +0000" ++ [NL]
    ++ lit "committer A U Thor <author@example.com> 1 +0000" ++ [NL]
    ++ [NL] ++ lit "merge" ++ [NL].

(** A commit body with an empty line right after the tree line. *)
Definition short_line_body : bytes :=
  commit_header id_t [] ++ [NL] ++ lit "message" ++ [NL].

Definition blob_object : Object.t :=
  Object.mk (lit "blob") (lit "5") (lit ".git/objects/11/22") (lit "1122")
            (lit "hello").

Definition tag_object : Object.t :=
  Object.mk (lit "tag") (lit "4") (lit ".git/objects/33/44") (lit "3344")
            (lit "object 1122").

Definition cut_commit_object : Object.t :=
  Object.mk (lit "commit") (lit "8") (lit ".git/objects/55/66") (lit "5566")
            (lit "tree 012").

(** A store whose files inflate to a header without a space byte. *)
Definition env_no_space : Env :=
  mkEnv (fun _ => Some []) (fun _ => Some (lit "blob12")) (fun p => p) (fun p => p).

(** The repository loop has visited [r]'s objects and visits [obj] next. *)
Definition visited_then (r : Repo.t) (key : bytes) (obj : Object.t) : Repo.t :=
  Repo.mk (Repo.location r) (Repo.objects r ++ [(key, obj)]).

(** The edges one object contributes, in the words of the design document:
    a commit points at its parents, in order, then at its tree; a tree points
    at the target of each entry, in order; any other object at nothing. *)
Definition object_edges (obj : Object.t) : list Edge.t :=
  if bytes_eqb (Object.Type_ obj) (lit "commit") then
    match parseCommit obj with
    | Ok c => map (fun p => Edge.mk (Object.Name obj) p) (Commit.Parents c)
                ++ [Edge.mk (Object.Name obj) (Commit.Tree c)]
    | _ => []
    end
  else if bytes_eqb (Object.Type_ obj) (lit "tree") then
    match parseTree obj with
    | Ok entries => map (fun entry => Edge.mk (Object.Name obj)
                                             (TreeEntry.Hash entry)) entries
    | _ => []
    end
  else [].

(** Neither end of the string is an ASCII white-space byte. *)
Definition trimmed (s : bytes) : Prop := ~ ws_edge s.


(** ** The rest of [gitutils.go]: loading a repository *)

Definition OBJS_DIR : bytes := lit "/.git/objects".
Definition HEAD_LOC : bytes := lit "/.git/HEAD".

Definition getObjectName (env : Env) (object_path : bytes) : bytes :=
  let object_dir := Base env (Dir env object_path) in
  let name := object_dir ++ Base env object_path in
  name.

(** One call [filepath.WalkDir] makes to its callback: the path, whether the
    entry is a directory, and whether the walk reports an error for it. *)
Module Visit.
Record t : Type := mk { path : bytes; IsDir : bool; err : bool }.
End Visit.

(** [regexp.MatchString("^[a-fA-F0-9]+$", s)]: one or more bytes, all of them
    hexadecimal digits of either case.  The pattern is a constant that
    compiles, so the call reports no error. *)
Definition hex_digit_any (c : byte) : bool :=
  let v := byte_val c in
  ((48 <=? v) && (v <=? 57)) || ((97 <=? v) && (v <=? 102))
  || ((65 <=? v) && (v <=? 70)).

Definition is_hex_name (s : bytes) : bool :=
  match s with
  | [] => false
  | _ => forallb hex_digit_any s
  end.

(** A Go [map[string]*Object] as a list of bindings with one binding per key;
    [objects[k] = v] replaces the binding of [k] or adds one. *)
Fixpoint map_insert (k : bytes) (v : Object.t) (m : list (bytes * Object.t))
  : list (bytes * Object.t) :=
  match m with
  | [] => [(k, v)]
  | (k', v') :: m' =>
    if bytes_eqb k' k then (k, v) :: m' else (k', v') :: map_insert k v m'
  end.

(** [objects[k]]: [None] is the nil pointer of a missing key. *)
Fixpoint map_lookup (k : bytes) (m : list (bytes * Object.t)) : option Object.t :=
  match m with
  | [] => None
  | (k', v') :: m' => if bytes_eqb k' k then Some v' else map_lookup k m'
  end.

(** The callback of [getObjects] run over the calls of the walk.  A call
    that carries an error makes the callback return it, which ends the walk;
    [getObjects] drops what [WalkDir] returns. *)
Fixpoint getObjects_walk (env : Env) (visits : list Visit.t)
         (objects : list (bytes * Object.t)) : outcome (list (bytes * Object.t)) :=
  match visits with
  | [] => Ok objects
  | d :: visits' =>
    if Visit.err d then Ok objects
    else
      let is_hex := is_hex_name (Base env (Visit.path d)) in
      if negb (Visit.IsDir d) && is_hex then
        obj <- newObject env (Visit.path d) ;;
        getObjects_walk env visits' (map_insert (Object.Name obj) obj objects)
      else getObjects_walk env visits' objects
  end.

(** [WalkDir] is the file system seen through [filepath.WalkDir]: for a root,
    the calls the walk makes while the callback keeps returning nil. *)
Definition getObjects (env : Env) (WalkDir : bytes -> list Visit.t)
           (objects_dir : bytes) : outcome (list (bytes * Object.t)) :=
  getObjects_walk env (WalkDir objects_dir) [].

Definition newRepo (env : Env) (WalkDir : bytes -> list Visit.t)
           (location : bytes) : outcome Repo.t :=
  objects <- getObjects env WalkDir (location ++ OBJS_DIR) ;;
  Ok (Repo.mk location objects).

Definition Repo_getObject (r : Repo.t) (name : bytes) : option Object.t :=
  map_lookup name (Repo.objects r).

Definition Repo_refresh (env : Env) (WalkDir : bytes -> list Visit.t)
           (r : Repo.t) : outcome Repo.t :=
  objects <- getObjects env WalkDir (Repo.location r) ;;
  Ok (Repo.mk (Repo.location r) objects).

(** ** HEAD, branch and current commit *)

(** [strings.Split(s, sep)] for a separator of one byte. *)
Fixpoint Split (sep : byte) (s : bytes) : list bytes :=
  match s with
  | [] => [[]]
  | c :: s' =>
    if Byte.eqb c sep then [] :: Split sep s'
    else match Split sep s' with
         | l :: ls => (c :: l) :: ls
         | [] => [[c]]
         end
  end.

Definition COLON : byte := x3a.

Definition Repo_head (env : Env) (r : Repo.t) : outcome bytes :=
  match ReadFile env (Repo.location r ++ HEAD_LOC) with
  | None => Fatal
  | Some bytes_ =>
    match nth_error (Split COLON bytes_) 1 with
    | Some ref => Ok (Go.TrimSpace ref)
    | None => Panic
    end
  end.

Definition Repo_branch (env : Env) (r : Repo.t) : outcome bytes :=
  h <- Repo_head env r ;; Ok (Base env h).


(** ** Export to SQLite *)

(** The database [toSQLite] fills.  The file is removed before it is opened,
    so the two tables the [create table] statements make start empty;
    [objects] has [name] as its primary key and refuses a second row of the
    same name, an error that goes to [log.Fatal].  Failures of the database
    file itself are outside the model. *)
Module Sqlite.
Record t : Type := mk {
  objects : list (bytes * bytes * Json);
  edges : list Edge.t
}.
End Sqlite.

(** [objs_stmt.Exec(name, type, object)] followed by the error check. *)
Definition objs_stmt_Exec (db : Sqlite.t) (name type_ : bytes) (object : Json)
  : outcome Sqlite.t :=
  if existsb (fun row => bytes_eqb (fst (fst row)) name) (Sqlite.objects db)
  then Fatal
  else Ok (Sqlite.mk (Sqlite.objects db ++ [(name, type_, object)])
                     (Sqlite.edges db)).

(** [edges_stmt.Exec(src, dest)] followed by the error check. *)
Definition edges_stmt_Exec (db : Sqlite.t) (src dest : bytes) : outcome Sqlite.t :=
  Ok (Sqlite.mk (Sqlite.objects db) (Sqlite.edges db ++ [Edge.mk src dest])).

(** [for _, p := range commit.Parents { edges_stmt.Exec(obj.Name, p) }] and
    its twin over tree entries. *)
Fixpoint toSQLite_edges (db : Sqlite.t) (src : bytes) (dests : list bytes)
  : outcome Sqlite.t :=
  match dests with
  | [] => Ok db
  | p :: dests' => db' <- edges_stmt_Exec db src p ;; toSQLite_edges db' src dests'
  end.

(** The body of [for name, obj := range r.objects]. *)
Definition toSQLite_visit (db : Sqlite.t) (name : bytes) (obj : Object.t)
  : outcome Sqlite.t :=
  data <- Object_toJson obj ;;
  db <- objs_stmt_Exec db name (Object.Type_ obj) data ;;
  if bytes_eqb (Object.Type_ obj) (lit "commit") then
    commit <- parseCommit obj ;;
    db <- toSQLite_edges db (Object.Name obj) (Commit.Parents commit) ;;
    edges_stmt_Exec db (Object.Name obj) (Commit.Tree commit)
  else if bytes_eqb (Object.Type_ obj) (lit "tree") then
    entries <- parseTree obj ;;
    toSQLite_edges db (Object.Name obj) (map TreeEntry.Hash entries)
  else Ok db.

Fixpoint toSQLite_loop (objs : list (bytes * Object.t)) (db : Sqlite.t)
  : outcome Sqlite.t :=
  match objs with
  | [] => Ok db
  | (name, obj) :: objs' =>
    db' <- toSQLite_visit db name obj ;; toSQLite_loop objs' db'
  end.

Definition Repo_toSQLite (r : Repo.t) : outcome Sqlite.t :=
  toSQLite_loop (Repo.objects r) (Sqlite.mk [] []).

(** ** Shapes of well-formed input used in the statements below *)

(** A header that has its space and, after it, its zero byte. *)
Definition well_formed_header (data : bytes) : Prop :=
  exists ty sz content,
    data = ty ++ SPACE :: sz ++ NUL :: content
    /\ ~ In SPACE ty /\ ~ In NUL sz.

(** The callback loads the file of this call. *)
Definition loads (env : Env) (d : Visit.t) : bool :=
  negb (Visit.err d) && negb (Visit.IsDir d)
  && is_hex_name (Base env (Visit.path d)).

(** A line the parent loop accepts: [parent], any one byte, 40 bytes taken
    as the identifier, and whatever follows up to the end of the line. *)
Module ParentLine.
Record t : Type := mk { sep : byte; id : bytes; junk : bytes }.
End ParentLine.

Definition parent_like (l : ParentLine.t) : bytes :=
  lit "parent" ++ [ParentLine.sep l] ++ ParentLine.id l ++ ParentLine.junk l.

Definition parent_like_ok (l : ParentLine.t) : Prop :=
  length (ParentLine.id l) = 40%nat /\ ~ In NL (parent_like l).

(** Every field of a returned tree entry is in its final form. *)
Definition entry_shape (d : TreeEntry.t) : Prop :=
  trimmed (TreeEntry.Mode d) /\ trimmed (TreeEntry.Name d)
  /\ length (TreeEntry.Hash d) = 40%nat
  /\ Forall (fun c => is_hex c = true) (TreeEntry.Hash d).

(** The object is a blob, a tree that decodes or a commit that decodes. *)
Definition presentable (obj : Object.t) : Prop :=
  Object.Type_ obj = lit "blob"
  \/ (Object.Type_ obj = lit "tree" /\ returns (parseTree obj))
  \/ (Object.Type_ obj = lit "commit" /\ returns (parseCommit obj)).

(** If the object is a tree or a commit, it decodes. *)
Definition decodable (obj : Object.t) : Prop :=
  (Object.Type_ obj = lit "tree" -> returns (parseTree obj))
  /\ (Object.Type_ obj = lit "commit" -> returns (parseCommit obj)).

(** The document [Object.toJson] hands over for an object that decodes: the
    zero bytes of the [default] case for an object that is neither tree,
    commit nor blob. *)
Definition document_of (obj : Object.t) : Json :=
  match Object_toJson obj with
  | Ok data => data
  | _ => JsonEmpty
  end.

(** ** More sample data *)

(** A store with one file, whose directory and file names are the last two
    segments of the sample path. *)
Definition env_blob : Env :=
  mkEnv (fun _ => Some [x78])
        (fun _ => Some (lit "blob 5" ++ [NUL] ++ lit "hello"))
        (fun p => if bytes_eqb p (lit ".git/objects/11") then lit "11"
                  else lit "22")
        (fun _ => lit ".git/objects/11").

(** A body that follows no grammar: text around one zero byte. *)
Definition body_text : bytes :=
  lit "The quick brown fox" ++ [NUL] ++ lit " jumps over the lazy".

(** A repository of one blob, one merge commit and one tree, and the graph
    [Repo.toJson] builds when it visits them in this order. *)
Definition sample_repo : Repo.t :=
  Repo.mk (lit ".")
          [(lit "1122", blob_object);
           (lit "5566", commit_object (lit "5566") merge_commit_body);
           (lit "aa11", tree_object (lit "aa11")
                                    (encode_tree [entry_file; entry_dir]))].

Definition sample_graph : Graph.t :=
  Graph.mk
    [Node.mk (lit "1122") (lit "blob") (JsonBlob blob_object);
     Node.mk (lit "5566") (lit "commit")
             (JsonCommit (Commit.mk id_t [id_p1; id_p2]));
     Node.mk (lit "aa11") (lit "tree")
             (JsonEntries [entry_of entry_file; entry_of entry_dir])]
    [Edge.mk (lit "5566") id_p1; Edge.mk (lit "5566") id_p2;
     Edge.mk (lit "5566") id_t;
     Edge.mk (lit "aa11") (Go.EncodeToString hash_a);
     Edge.mk (lit "aa11") (Go.EncodeToString hash_b)].

(** A store on disk, for the examples: two loose objects, an [info]
    directory with a file that is no object, [HEAD] and the branch file.
    [sample_base] and [sample_dir] cut a path at its last slash. *)
Definition SLASH : byte := x2f.

Fixpoint join_slash (segs : list bytes) : bytes :=
  match segs with
  | [] => []
  | [s] => s
  | s :: segs' => s ++ [SLASH] ++ join_slash segs'
  end.

Definition sample_base (p : bytes) : bytes := last (Split SLASH p) [].
Definition sample_dir (p : bytes) : bytes := join_slash (removelast (Split SLASH p)).

Definition sample_env : Env :=
  mkEnv
    (fun p =>
       if bytes_eqb p (lit "./.git/objects/11/22") then Some [x01]
       else if bytes_eqb p (lit "./.git/objects/55/66") then Some [x02]
       else if bytes_eqb p (lit "./.git/HEAD")
            then Some (lit "ref: refs/heads/main" ++ [NL])
       else if bytes_eqb p (lit "./.git/refs/heads/main")
            then Some (lit "5566" ++ [NL])
       else None)
    (fun z =>
       if bytes_eqb z [x01] then Some (lit "blob 5" ++ [NUL] ++ lit "hello")
       else if bytes_eqb z [x02]
            then Some (lit "commit 231" ++ [NUL] ++ merge_commit_body)
       else None)
    sample_base sample_dir.

Definition sample_walk (root : bytes) : list Visit.t :=
  if bytes_eqb root (lit "./.git/objects") then
    [Visit.mk (lit "./.git/objects") true false;
     Visit.mk (lit "./.git/objects/11") true false;
     Visit.mk (lit "./.git/objects/11/22") false false;
     Visit.mk (lit "./.git/objects/55") true false;
     Visit.mk (lit "./.git/objects/55/66") false false;
     Visit.mk (lit "./.git/objects/info") true false;
     Visit.mk (lit "./.git/objects/info/packs") false false]
  else [Visit.mk root false true].

Definition sample_blob : Object.t :=
  Object.mk (lit "blob") (lit "5") (lit "./.git/objects/11/22") (lit "1122")
            (lit "hello").

Definition sample_commit : Object.t :=
  Object.mk (lit "commit") (lit "231") (lit "./.git/objects/55/66") (lit "5566")
            merge_commit_body.

Definition sample_loaded : Repo.t :=
  Repo.mk (lit ".") [(lit "1122", sample_blob); (lit "5566", sample_commit)].

(** A detached checkout: HEAD holds the commit identifier. *)
Definition detached_env : Env :=
  mkEnv (fun _ => Some (id_p1 ++ [NL])) (fun _ => None) sample_base sample_dir.

(** * Properties *)

(** ** Slices *)

Lemma len_app (a b : bytes) : len (a ++ b) = len a + len b.
Proof. unfold len. rewrite length_app. lia. Qed.

Lemma len_nonneg (a : bytes) : 0 <= len a.
Proof. unfold len. lia. Qed.

Lemma len_cons (c : byte) (a : bytes) : len (c :: a) = 1 + len a.
Proof. unfold len. simpl length. lia. Qed.

Lemma len_nil : len [] = 0.
Proof. reflexivity. Qed.

Lemma skipn_len_app (a b : bytes) : skipn (Z.to_nat (len a)) (a ++ b) = b.
Proof.
  unfold len. rewrite Nat2Z.id.
  rewrite skipn_app, skipn_all, Nat.sub_diag. reflexivity.
Qed.

Lemma firstn_len_app (a b : bytes) : firstn (Z.to_nat (len a)) (a ++ b) = a.
Proof.
  unfold len. rewrite Nat2Z.id.
  rewrite firstn_app, firstn_all, Nat.sub_diag. simpl. apply app_nil_r.
Qed.

(** [(a ++ b ++ c)[len a : len a + len b] = b] *)
Lemma slice_middle (a b c : bytes) (lo hi : Z) :
  lo = len a -> hi = len a + len b -> slice (a ++ b ++ c) lo hi = Ok b.
Proof.
  intros -> ->. unfold slice.
  pose proof (len_nonneg a). pose proof (len_nonneg b). pose proof (len_nonneg c).
  rewrite !len_app.
  replace ((0 <=? len a) && (len a <=? len a + len b)
           && (len a + len b <=? len a + (len b + len c))) with true
    by (symmetry; rewrite !andb_true_iff, !Z.leb_le; lia).
  rewrite skipn_len_app.
  replace (len a + len b - len a) with (len b) by lia.
  rewrite firstn_len_app. reflexivity.
Qed.

Lemma slice_panic (s : bytes) (lo hi : Z) :
  lo < 0 \/ hi < lo \/ len s < hi -> slice s lo hi = Panic.
Proof.
  intros H. unfold slice.
  replace ((0 <=? lo) && (lo <=? hi) && (hi <=? len s)) with false; [reflexivity|].
  symmetry. rewrite !andb_false_iff, !Z.leb_gt. lia.
Qed.

Lemma bytes_eqb_eq (a b : bytes) : bytes_eqb a b = true <-> a = b.
Proof.
  unfold bytes_eqb. destruct (list_eq_dec Byte.byte_eq_dec a b); split;
    auto; discriminate.
Qed.

Lemma bytes_eqb_refl (a : bytes) : bytes_eqb a a = true.
Proof. apply bytes_eqb_eq. reflexivity. Qed.

Lemma bytes_eqb_neq (a b : bytes) : a <> b -> bytes_eqb a b = false.
Proof.
  intros H. destruct (bytes_eqb a b) eqn:E; [|reflexivity].
  apply bytes_eqb_eq in E. contradiction.
Qed.

(** ** [strings.TrimSpace] on strings with ASCII edges *)

Lemma asciiSpace_ascii (c : byte) :
  Go.asciiSpace c = true -> (Go.RuneSelf <=? byte_val c) = false.
Proof. destruct c; vm_compute; congruence. Qed.

Lemma clean_ascii (c : byte) :
  clean c = true -> (Go.RuneSelf <=? byte_val c) = false.
Proof. destruct c; vm_compute; congruence. Qed.

Lemma clean_not_space (c : byte) : clean c = true -> Go.asciiSpace c = false.
Proof. destruct c; vm_compute; congruence. Qed.

Lemma TrimSpace_stop_spaces (rr : bytes) (c : byte) (rc : bytes) :
  Forall (fun b => Go.asciiSpace b = true) rr -> clean c = true ->
  Go.TrimSpace_stop (rr ++ c :: rc) = rev (c :: rc).
Proof.
  intros Hrr Hc. induction Hrr as [|b rr Hb _ IH]; simpl.
  - rewrite (clean_ascii _ Hc), (clean_not_space _ Hc). reflexivity.
  - rewrite (asciiSpace_ascii _ Hb), Hb. exact IH.
Qed.

Lemma TrimSpace_stop_all_spaces (rr : bytes) :
  Forall (fun b => Go.asciiSpace b = true) rr -> Go.TrimSpace_stop rr = [].
Proof.
  intros Hrr. induction Hrr as [|b rr Hb _ IH]; simpl; [reflexivity|].
  rewrite (asciiSpace_ascii _ Hb), Hb. exact IH.
Qed.

(** White space around a core whose first and last bytes are ASCII and not
    white space is removed, and nothing else. *)
Lemma TrimSpace_core (l r t : bytes) (c d : byte) :
  Forall (fun b => Go.asciiSpace b = true) l ->
  Forall (fun b => Go.asciiSpace b = true) r ->
  clean c = true -> clean d = true -> last (c :: t) c = d ->
  Go.TrimSpace (l ++ (c :: t) ++ r) = c :: t.
Proof.
  intros Hl Hr Hc Hd Hlast. induction Hl as [|b l Hb _ IH].
  - cbn [app Go.TrimSpace].
    rewrite (clean_ascii _ Hc), (clean_not_space _ Hc).
    change (c :: t ++ r) with ((c :: t) ++ r). rewrite rev_app_distr.
    destruct (exists_last (l := c :: t)) as [t' [d' E]]; [discriminate|].
    rewrite E in Hlast |- *. rewrite last_last in Hlast. subst d'.
    rewrite rev_app_distr. simpl rev at 2. cbn [app].
    rewrite TrimSpace_stop_spaces; auto.
    + simpl. rewrite rev_involutive. reflexivity.
    + apply Forall_rev. exact Hr.
  - cbn [app Go.TrimSpace]. rewrite (asciiSpace_ascii _ Hb), Hb. exact IH.
Qed.


Lemma TrimSpace_clean (s : bytes) :
  Forall (fun c => clean c = true) s -> Go.TrimSpace s = s.
Proof.
  intros H. destruct s as [|c t]; [reflexivity|].
  assert (Hc : clean c = true) by (inversion H; assumption).
  assert (Hd : clean (last (c :: t) c) = true).
  { rewrite Forall_forall in H. apply H.
    destruct (exists_last (l := c :: t)) as [t' [d' E]]; [discriminate|].
    rewrite E, last_last. apply in_or_app. right. left. reflexivity. }
  pose proof (@TrimSpace_core [] [] t c (last (c :: t) c) (Forall_nil _) (Forall_nil _) Hc Hd eq_refl) as E.
  simpl in E. rewrite app_nil_r in E. exact E.
Qed.

(** A leading space is dropped before anything else is looked at. *)
Lemma TrimSpace_space_cons (s : bytes) :
  Go.TrimSpace (SPACE :: s) = Go.TrimSpace s.
Proof. reflexivity. Qed.

Lemma TrimSpace_clean_space (s : bytes) :
  Forall (fun c => clean c = true) s -> Go.TrimSpace (s ++ [SPACE]) = s.
Proof.
  intros H. destruct s as [|c t]; [reflexivity|].
  assert (Hc : clean c = true) by (inversion H; assumption).
  assert (Hd : clean (last (c :: t) c) = true).
  { rewrite Forall_forall in H. apply H.
    destruct (exists_last (l := c :: t)) as [t' [d' E]]; [discriminate|].
    rewrite E, last_last. apply in_or_app. right. left. reflexivity. }
  apply (@TrimSpace_core [] [SPACE] t c (last (c :: t) c) (Forall_nil _)); auto.
Qed.

(** ** [encoding/hex] *)

Lemma hexdigits_clean (v : byte) :
  clean (Go.hexdigit (Z.shiftr (byte_val v) 4)) = true
  /\ clean (Go.hexdigit (Z.land (byte_val v) 0x0F)) = true.
Proof. destruct v; vm_compute; split; reflexivity. Qed.

Lemma EncodeToString_clean (s : bytes) :
  Forall (fun c => clean c = true) (Go.EncodeToString s).
Proof.
  induction s as [|v s IH]; simpl; [constructor|].
  destruct (hexdigits_clean v). repeat constructor; assumption.
Qed.

Lemma TrimSpace_EncodeToString (s : bytes) :
  Go.TrimSpace (Go.EncodeToString s) = Go.EncodeToString s.
Proof. apply TrimSpace_clean, EncodeToString_clean. Qed.

Lemma EncodeToString_length (s : bytes) :
  length (Go.EncodeToString s) = (2 * length s)%nat.
Proof. induction s as [|v s IH]; simpl; [reflexivity|]. rewrite IH. lia. Qed.

Lemma hex_byte_roundtrip (v : byte) :
  match fromHexChar (Go.hexdigit (Z.shiftr (byte_val v) 4)),
        fromHexChar (Go.hexdigit (Z.land (byte_val v) 0x0F)) with
  | Some a, Some b => Byte.of_N (Z.to_N (Z.lor (Z.shiftl a 4) b)) = Some v
  | _, _ => False
  end.
Proof. destruct v; vm_compute; reflexivity. Qed.

Lemma DecodeString_EncodeToString (s : bytes) :
  DecodeString (Go.EncodeToString s) = Some s.
Proof.
  induction s as [|v s IH]; [reflexivity|].
  cbn [Go.EncodeToString DecodeString].
  pose proof (hex_byte_roundtrip v) as H.
  destruct (fromHexChar _); [|contradiction].
  destruct (fromHexChar _); [|contradiction].
  rewrite IH, H. reflexivity.
Qed.

(** ** The tree decoder on well-formed entries *)

Ltac lens :=
  repeat rewrite ?len_app, ?len_cons, ?len_nil in *.

Lemma length_len (s : bytes) (n : nat) : length s = n -> len s = Z.of_nat n.
Proof. intros <-. reflexivity. Qed.

Lemma encode_entry_windows (e : RawEntry.t) :
  fixed_entry e ->
  encode_entry e = mode_window e ++ name_window e ++ [NUL] ++ RawEntry.hash e
  /\ length (mode_window e) = 6%nat
  /\ ~ In NUL (name_window e).
Proof.
  intros (Hm & Hn & _). unfold encode_entry, mode_window, name_window.
  destruct e as [m n h]; simpl in *.
  destruct Hm as [Hm | Hm].
  - do 5 (destruct m as [|? m]; [simpl in Hm; lia|]).
    destruct m; [|simpl in Hm; lia]. simpl. auto.
  - do 6 (destruct m as [|? m]; [simpl in Hm; lia|]).
    destruct m; [|simpl in Hm; lia].
    simpl. repeat split; auto. intros [E | E]; [discriminate | auto].
Qed.

Lemma scan_name_nul (a b : bytes) (i cl : Z) :
  ~ In NUL a -> i + len a <= cl - 1 ->
  scan_name (a ++ NUL :: b) i cl = Ok (i + len a).
Proof.
  revert i. induction a as [|c a IH]; intros i Hn Hb.
  - rewrite len_nil. cbn. f_equal. lia.
  - cbn [app scan_name]. rewrite len_cons in *.
    assert (Hc : Byte.eqb c NUL = false).
    { destruct (Byte.eqb c NUL) eqn:E; [|reflexivity].
      apply Byte.byte_dec_bl in E. subst c. exfalso. apply Hn. left. reflexivity. }
    rewrite Hc. simpl negb. pose proof (len_nonneg a).
    replace (i <? cl - 1) with true by (symmetry; apply Z.ltb_lt; lia).
    cbn [andb]. rewrite IH.
    + f_equal. lia.
    + intros H1. apply Hn. right. exact H1.
    + lia.
Qed.

Lemma scan_name_end (a : bytes) (i cl : Z) :
  ~ In NUL a -> a <> [] -> cl = i + len a ->
  scan_name a i cl = Ok (cl - 1).
Proof.
  revert i. induction a as [|c a IH]; intros i Hn Ha Hcl; [congruence|].
  cbn [scan_name]. rewrite len_cons in Hcl.
  assert (Hc : Byte.eqb c NUL = false).
  { destruct (Byte.eqb c NUL) eqn:E; [|reflexivity].
    apply Byte.byte_dec_bl in E. subst c. exfalso. apply Hn. left. reflexivity. }
  rewrite Hc. simpl negb. destruct a as [|d a].
  - rewrite len_nil in Hcl.
    replace (i <? cl - 1) with false by (symmetry; apply Z.ltb_ge; lia).
    simpl. f_equal. lia.
  - pose proof (len_nonneg a). rewrite len_cons in Hcl.
    replace (i <? cl - 1) with true by (symmetry; apply Z.ltb_lt; lia).
    cbn [andb]. apply IH.
    + intros H1. apply Hn. right. exact H1.
    + discriminate.
    + rewrite len_cons. lia.
Qed.

Lemma scan_name_ge (rest : bytes) (i cl j : Z) :
  scan_name rest i cl = Ok j -> i <= j.
Proof.
  revert i. induction rest as [|c rest IH]; intros i H; [discriminate|].
  simpl in H. destruct (negb (Byte.eqb c NUL) && (i <? cl - 1)).
  - apply IH in H. lia.
  - inversion H. lia.
Qed.

(** Three iterations of the loop read one entry. *)
Lemma parseTree_loop_entry (steps : nat) (pre w nm h rest m0 n0 : bytes)
      (entries : list TreeEntry.t) :
  length w = 6%nat -> ~ In NUL nm -> length h = 20%nat ->
  let Content := pre ++ w ++ nm ++ [NUL] ++ h ++ rest in
  let next := len pre + 27 + len nm in
  parseTree_loop (S (S (S steps))) Content 1 (len pre) (len pre + 6) m0 n0 entries
  = parseTree_loop steps Content 1 next (next + 6)
      (Go.TrimSpace w) (Go.TrimSpace nm)
      (entries ++ [TreeEntry.mk (Go.TrimSpace w) (Go.TrimSpace nm)
                                (Go.EncodeToString h)]).
Proof.
  intros Hw Hnm Hh Content next.
  apply length_len in Hw. apply length_len in Hh.
  pose proof (len_nonneg pre). pose proof (len_nonneg nm).
  pose proof (len_nonneg rest).
  assert (Hlen : len Content = len pre + 27 + len nm + len rest).
  { unfold Content. lens. lia. }
  (* MODE *)
  cbn [parseTree_loop]. fold Content.
  replace (len pre + 6 <=? len Content) with true
    by (symmetry; apply Z.leb_le; lia).
  change (1 =? 1) with true. cbv iota.
  rewrite (@slice_middle pre w (nm ++ [NUL] ++ h ++ rest)) by lia.
  cbn [bind].
  (* NAME *)
  change (1 + 1) with 2. cbn [parseTree_loop]. fold Content.
  replace (len pre + 6 <=? len Content) with true
    by (symmetry; apply Z.leb_le; lia).
  change (2 =? 1) with false. change (2 =? 2) with true. cbv iota.
  replace (len pre + 6 <? 0) with false by (symmetry; apply Z.ltb_ge; lia).
  assert (Hskip : skipn (Z.to_nat (len pre + 6)) Content
                  = nm ++ NUL :: h ++ rest).
  { unfold Content. replace (len pre + 6) with (len (pre ++ w)) by (lens; lia).
    rewrite app_assoc. rewrite skipn_len_app. reflexivity. }
  rewrite Hskip. rewrite scan_name_nul by (auto; lia). cbn [bind].
  unfold Content at 1.
  rewrite app_assoc.
  rewrite (@slice_middle (pre ++ w) nm ([NUL] ++ h ++ rest)) by (lens; lia).
  cbn [bind].
  (* HASH *)
  change (2 + 1) with 3. cbn [parseTree_loop]. fold Content.
  replace (len pre + 6 + len nm + 1 + 20 <=? len Content) with true
    by (symmetry; apply Z.leb_le; lia).
  change (3 =? 1) with false. change (3 =? 2) with false.
  change (3 =? 3) with true. cbv iota.
  unfold Content at 1.
  replace (pre ++ w ++ nm ++ [NUL] ++ h ++ rest)
    with ((pre ++ w ++ nm ++ [NUL]) ++ h ++ rest)
    by (rewrite <- !app_assoc; reflexivity).
  rewrite (@slice_middle (pre ++ w ++ nm ++ [NUL]) h rest) by (lens; lia).
  cbn [bind]. rewrite TrimSpace_EncodeToString.
  replace ((pre ++ w ++ nm ++ [NUL]) ++ h ++ rest) with Content
    by (unfold Content; rewrite <- !app_assoc; reflexivity).
  unfold next.
  replace (len pre + 6 + len nm + 1 + 20) with (len pre + 27 + len nm) by lia.
  reflexivity.
Qed.

Lemma parseTree_loop_done (steps : nat) (Content m n : bytes)
      (item start stop : Z) (entries : list TreeEntry.t) :
  len Content < stop ->
  parseTree_loop steps Content item start stop m n entries = Ok entries.
Proof.
  intros H. destruct steps; cbn [parseTree_loop];
    replace (stop <=? len Content) with false
      by (symmetry; apply Z.leb_gt; lia); reflexivity.
Qed.

Lemma encode_entry_len (e : RawEntry.t) :
  fixed_entry e -> len (encode_entry e) = 27 + len (name_window e).
Proof.
  intros H. destruct (encode_entry_windows _ H) as (E & Hw & _).
  destruct H as (_ & _ & Hh). rewrite E. lens.
  rewrite (length_len _ _ Hw), (length_len _ _ Hh). lia.
Qed.

(** The loop reads the entries of a well-formed prefix of the body one by
    one, three iterations each. *)
Lemma parseTree_loop_entries (es : list RawEntry.t) :
  Forall fixed_entry es ->
  forall (steps : nat) (pre rest m0 n0 : bytes) (entries : list TreeEntry.t),
  exists m n,
    parseTree_loop (3 * length es + steps) (pre ++ encode_tree es ++ rest)
                   1 (len pre) (len pre + 6) m0 n0 entries
    = parseTree_loop steps (pre ++ encode_tree es ++ rest)
                     1 (len pre + len (encode_tree es))
                     (len pre + len (encode_tree es) + 6) m n
                     (entries ++ map read_entry es).
Proof.
  induction 1 as [|e es He Hes IH]; intros steps pre rest m0 n0 entries.
  - exists m0, n0. cbn [length Nat.mul Nat.add encode_tree map concat].
    rewrite len_nil, app_nil_r, Z.add_0_r. reflexivity.
  - destruct (encode_entry_windows _ He) as (E & Hw & Hn).
    pose proof (encode_entry_len _ He) as HL.
    destruct He as (_ & _ & Hh).
    replace (3 * length (e :: es) + steps)%nat
      with (S (S (S (3 * length es + steps)))) by (simpl length; lia).
    change (encode_tree (e :: es)) with (encode_entry e ++ encode_tree es).
    assert (EC : pre ++ (encode_entry e ++ encode_tree es) ++ rest
                 = pre ++ mode_window e ++ name_window e ++ [NUL]
                       ++ RawEntry.hash e ++ (encode_tree es ++ rest)).
    { rewrite E, <- !app_assoc. reflexivity. }
    rewrite EC.
    rewrite (parseTree_loop_entry _ pre _ _ _ (encode_tree es ++ rest)
                                  m0 n0 entries Hw Hn Hh).
    rewrite <- EC.
    replace (pre ++ (encode_entry e ++ encode_tree es) ++ rest)
      with ((pre ++ encode_entry e) ++ encode_tree es ++ rest)
      by (rewrite <- !app_assoc; reflexivity).
    replace (len pre + 27 + len (name_window e)) with (len (pre ++ encode_entry e))
      by (lens; lia).
    destruct (IH steps (pre ++ encode_entry e) rest
                 (Go.TrimSpace (mode_window e)) (Go.TrimSpace (name_window e))
                 (entries ++ [read_entry e])) as (m & n & IHe).
    exists m, n. unfold read_entry at 1 in IHe. rewrite IHe.
    lens. cbn [map]. rewrite <- !app_assoc. cbn [app].
    f_equal; lia.
Qed.

Lemma encode_tree_length (es : list RawEntry.t) :
  Forall fixed_entry es -> (length es <= length (encode_tree es))%nat.
Proof.
  induction 1 as [|e es He _ IH]; [simpl; lia|].
  change (encode_tree (e :: es)) with (encode_entry e ++ encode_tree es).
  rewrite length_app. pose proof (encode_entry_len _ He) as HL.
  pose proof (len_nonneg (name_window e)). unfold len in *. simpl length. lia.
Qed.

(** [parseTree] on a body that begins with well-formed entries: what remains
    is the loop entered at the first byte after them. *)
Lemma parseTree_prefix (es : list RawEntry.t) (t : bytes) (obj : Object.t) :
  Forall fixed_entry es -> Object.Content obj = encode_tree es ++ t ->
  exists steps m n,
    parseTree obj
    = parseTree_loop (S (S steps)) (encode_tree es ++ t)
                     1 (len (encode_tree es)) (len (encode_tree es) + 6) m n
                     (map read_entry es).
Proof.
  intros Hes HC. unfold parseTree, parseTree_steps. rewrite HC.
  pose proof (encode_tree_length _ Hes) as HL.
  set (k := (3 * S (length (encode_tree es ++ t) - length es))%nat).
  replace (3 * S (length (encode_tree es ++ t)))%nat
    with (3 * length es + k)%nat
    by (unfold k; rewrite length_app in *; lia).
  destruct (parseTree_loop_entries _ Hes k [] t [] [] []) as (m & n & E).
  cbn [app] in E. rewrite len_nil in E. cbn [Z.add] in E.
  exists (3 * (length (encode_tree es ++ t) - length es) + 1)%nat, m, n.
  rewrite E. f_equal. unfold k. lia.
Qed.

(** A body made of well-formed entries and nothing else decodes to the
    entries as [parseTree] reads them. *)
Lemma parseTree_encode_tree (es : list RawEntry.t) (obj : Object.t) :
  Forall fixed_entry es -> Object.Content obj = encode_tree es ->
  parseTree obj = Ok (map read_entry es).
Proof.
  intros Hes HC.
  destruct (parseTree_prefix es [] obj Hes) as (steps & m & n & E).
  { rewrite app_nil_r. exact HC. }
  rewrite E. apply parseTree_loop_done. rewrite app_nil_r. lia.
Qed.

Lemma slice_ok (s : bytes) (lo hi : Z) :
  0 <= lo -> lo <= hi -> hi <= len s ->
  slice s lo hi = Ok (firstn (Z.to_nat (hi - lo)) (skipn (Z.to_nat lo) s)).
Proof.
  intros. unfold slice.
  replace ((0 <=? lo) && (lo <=? hi) && (hi <=? len s)) with true; [reflexivity|].
  symmetry. rewrite !andb_true_iff, !Z.leb_le. lia.
Qed.

(** A last entry cut off after its mode window: the name scan runs to the
    zero byte or to the last byte, and the loop guard ends the decode before
    the hash is read. *)
Lemma parseTree_loop_cut (steps : nat) (pre w t' m0 n0 : bytes)
      (entries : list TreeEntry.t) :
  length w = 6%nat -> t' <> [] ->
  (~ In NUL t' \/
   exists nm h', t' = nm ++ NUL :: h' /\ ~ In NUL nm /\ (length h' < 20)%nat) ->
  parseTree_loop (S (S steps)) (pre ++ w ++ t') 1 (len pre) (len pre + 6)
                 m0 n0 entries
  = Ok entries.
Proof.
  intros Hw Ht Hcut. apply length_len in Hw.
  set (Content := pre ++ w ++ t').
  pose proof (len_nonneg pre). pose proof (len_nonneg t').
  assert (Ht' : 1 <= len t').
  { destruct t'; [congruence|]. rewrite len_cons. pose proof (len_nonneg t'). lia. }
  assert (Hlen : len Content = len pre + 6 + len t') by (unfold Content; lens; lia).
  cbn [parseTree_loop]. fold Content.
  replace (len pre + 6 <=? len Content) with true
    by (symmetry; apply Z.leb_le; lia).
  change (1 =? 1) with true. cbv iota.
  unfold Content at 1.
  rewrite <- (app_nil_r t') at 1.
  rewrite (@slice_middle pre w (t' ++ [])) by lia.
  cbn [bind].
  change (1 + 1) with 2. change (2 =? 1) with false.
  change (2 =? 2) with true. cbv iota.
  replace (len pre + 6 <? 0) with false by (symmetry; apply Z.ltb_ge; lia).
  assert (Hskip : skipn (Z.to_nat (len pre + 6)) Content = t').
  { unfold Content. replace (len pre + 6) with (len (pre ++ w)) by (lens; lia).
    rewrite app_assoc. apply skipn_len_app. }
  rewrite Hskip.
  destruct Hcut as [Hno | (nm & h' & Et & Hnm & Hh')].
  - rewrite (@scan_name_end t' (len pre + 6) (len Content)) by (auto; lia).
    cbn [bind]. rewrite slice_ok by lia. cbn [bind].
    apply parseTree_loop_done. lia.
  - assert (Hlt : len t' = len nm + 1 + len h') by (rewrite Et; lens; lia).
    pose proof (len_nonneg nm). pose proof (len_nonneg h').
    rewrite Et at 1. rewrite scan_name_nul by (auto; lia).
    cbn [bind]. rewrite slice_ok by lia. cbn [bind].
    apply parseTree_loop_done. unfold len in *. lia.
Qed.

(** A proper prefix of a well-formed entry, of any length but 6, is of one of
    the two shapes above or is shorter than a mode window. *)
Lemma cut_entry_shape (e : RawEntry.t) (t u : bytes) :
  fixed_entry e -> t ++ u = encode_entry e -> u <> [] -> len t <> 6 ->
  len t < 6 \/
  exists w t', t = w ++ t' /\ length w = 6%nat /\ t' <> [] /\
    (~ In NUL t' \/
     exists nm h', t' = nm ++ NUL :: h' /\ ~ In NUL nm /\ (length h' < 20)%nat).
Proof.
  intros He E Hu H6. destruct (encode_entry_windows _ He) as (EW & Hw & Hn).
  destruct He as (_ & _ & Hh). rewrite EW in E.
  destruct (Z_lt_ge_dec (len t) 6) as [Hlt | Hge]; [left; exact Hlt | right].
  assert (Hlen : (6 < length t)%nat) by (unfold len in *; lia).
  exists (firstn 6 t), (skipn 6 t).
  assert (Ew : firstn 6 t = mode_window e).
  { assert (F : firstn 6 (t ++ u) = firstn 6 (mode_window e ++ name_window e
                                               ++ [NUL] ++ RawEntry.hash e))
      by (rewrite E; reflexivity).
    rewrite firstn_app in F. replace (6 - length t)%nat with 0%nat in F by lia.
    rewrite firstn_O, app_nil_r in F. rewrite F.
    rewrite firstn_app, <- Hw, firstn_all, Nat.sub_diag, firstn_O.
    apply app_nil_r. }
  assert (Et : t = mode_window e ++ skipn 6 t).
  { rewrite <- Ew. symmetry. apply firstn_skipn. }
  repeat split.
  - symmetry. apply firstn_skipn.
  - rewrite Ew. exact Hw.
  - intros Hnil. assert (length (skipn 6 t) = 0%nat) by (rewrite Hnil; reflexivity).
    rewrite length_skipn in *. lia.
  - rewrite Et in E. rewrite <- app_assoc in E. apply app_inv_head in E.
    set (t' := skipn 6 t) in *.
    change (name_window e ++ [NUL] ++ RawEntry.hash e)
      with (name_window e ++ NUL :: RawEntry.hash e) in E.
    apply app_eq_app in E. destruct E as (l & [[E1 E2] | [E1 E2]]).
    + destruct l as [|c l].
      * left. rewrite E1, app_nil_r. exact Hn.
      * right. cbn [app] in E2. injection E2 as Ec Eh. subst c.
        exists (name_window e), l. repeat split; auto.
        assert (length (RawEntry.hash e) = (length l + length u)%nat)
          by (rewrite Eh, length_app; reflexivity).
        destruct u; [congruence|]. simpl length in *. lia.
    + left. intros Hin. apply Hn. rewrite E1. apply in_or_app. left. exact Hin.
Qed.

(** Exactly six bytes after the last whole entry: they are read as a mode,
    and the name scan then indexes the byte after the last one. *)
Lemma parseTree_six_bytes_left (es : list RawEntry.t) (t : bytes) (obj : Object.t) :
  Forall fixed_entry es -> length t = 6%nat ->
  Object.Content obj = encode_tree es ++ t ->
  parseTree obj = Panic.
Proof.
  intros Hes Ht HC.
  destruct (parseTree_prefix es t obj Hes HC) as (steps & m & n & E).
  rewrite E. apply length_len in Ht.
  set (pre := encode_tree es). pose proof (len_nonneg pre).
  assert (Hlen : len (pre ++ t) = len pre + 6) by (lens; lia).
  cbn [parseTree_loop].
  replace (len pre + 6 <=? len (pre ++ t)) with true
    by (symmetry; apply Z.leb_le; lia).
  change (1 =? 1) with true. cbv iota.
  rewrite <- (app_nil_r t) at 1.
  rewrite (slice_middle pre t []) by lia. cbn [bind].
  change (1 + 1) with 2. change (2 =? 1) with false.
  change (2 =? 2) with true. cbv iota.
  replace (len pre + 6 <? 0) with false by (symmetry; apply Z.ltb_ge; lia).
  replace (len pre + 6) with (len (pre ++ t)) at 1 by lia.
  rewrite <- (app_nil_r (pre ++ t)) at 2. rewrite skipn_len_app.
  reflexivity.
Qed.

(** ** The tree decoder terminates *)

Lemma slice_cases (s : bytes) (lo hi : Z) :
  slice s lo hi = Panic \/ exists x, slice s lo hi = Ok x.
Proof.
  unfold slice. destruct ((0 <=? lo) && (lo <=? hi) && (hi <=? len s)); eauto.
Qed.

Lemma scan_name_cases (rest : bytes) (i cl : Z) :
  scan_name rest i cl = Panic \/ exists j, scan_name rest i cl = Ok j /\ i <= j.
Proof.
  revert i. induction rest as [|c rest IH]; intros i; [left; reflexivity|].
  simpl. destruct (negb (Byte.eqb c NUL) && (i <? cl - 1)).
  - destruct (IH (i + 1)) as [E | (j & E & Hj)]; [left; exact E|].
    right. exists j. split; [exact E | lia].
  - right. exists i. split; [reflexivity | lia].
Qed.

Lemma parseTree_loop_terminates (steps : nat) :
  forall (Content : bytes) (item start stop : Z) (m n : bytes)
         (entries : list TreeEntry.t),
  item = 1 \/ (item = 2 /\ start = stop) \/ item = 3 ->
  3 * (len Content - stop) + (4 - item) <= Z.of_nat steps ->
  parseTree_loop steps Content item start stop m n entries <> Diverge.
Proof.
  induction steps as [|steps IH]; intros Content item start stop m n entries Hi Hm.
  - cbn [parseTree_loop]. destruct (stop <=? len Content) eqn:E; [|discriminate].
    apply Z.leb_le in E. lia.
  - cbn [parseTree_loop]. destruct (stop <=? len Content) eqn:E; [|discriminate].
    apply Z.leb_le in E.
    destruct Hi as [-> | [[-> ->] | ->]].
    + change (1 =? 1) with true. cbv iota.
      destruct (slice_cases Content start stop) as [-> | (x & ->)];
        cbn [bind]; [discriminate|].
      apply IH; [right; left; split; reflexivity | lia].
    + change (2 =? 1) with false. change (2 =? 2) with true. cbv iota.
      destruct (stop <? 0); cbn [bind]; [discriminate|].
      destruct (scan_name_cases (skipn (Z.to_nat stop) Content) stop (len Content))
        as [-> | (j & -> & Hj)]; cbn [bind]; [discriminate|].
      destruct (slice_cases Content stop j) as [-> | (x & ->)];
        cbn [bind]; [discriminate|].
      apply IH; [right; right; reflexivity | lia].
    + change (3 =? 1) with false. change (3 =? 2) with false.
      change (3 =? 3) with true. cbv iota.
      destruct (slice_cases Content start stop) as [-> | (x & ->)];
        cbn [bind]; [discriminate|].
      apply IH; [left; reflexivity | lia].
Qed.

Lemma parseTree_loop_not_fatal (steps : nat) :
  forall (Content : bytes) (item start stop : Z) (m n : bytes)
         (entries : list TreeEntry.t),
  parseTree_loop steps Content item start stop m n entries <> Fatal.
Proof.
  induction steps as [|steps IH]; intros; cbn [parseTree_loop];
    destruct (stop <=? len Content); try discriminate.
  destruct (item =? 1).
  { destruct (slice_cases Content start stop) as [-> | (x & ->)];
      cbn [bind]; [discriminate | apply IH]. }
  destruct (item =? 2).
  { destruct (start <? 0); cbn [bind]; [discriminate|].
    destruct (scan_name_cases (skipn (Z.to_nat start) Content) start
                              (len Content)) as [-> | (j & -> & Hj)];
      cbn [bind]; [discriminate|].
    destruct (slice_cases Content start j) as [-> | (x & ->)];
      cbn [bind]; [discriminate | apply IH]. }
  destruct (item =? 3).
  { destruct (slice_cases Content start stop) as [-> | (x & ->)];
      cbn [bind]; [discriminate | apply IH]. }
  apply IH.
Qed.

(** The step bound of [parseTree] is never reached: the decoder returns a
    list of entries or panics. *)
Lemma parseTree_terminates (obj : Object.t) :
  parseTree obj = Panic \/ exists entries, parseTree obj = Ok entries.
Proof.
  assert (H : parseTree obj <> Diverge).
  { unfold parseTree, parseTree_steps. apply parseTree_loop_terminates.
    - left. reflexivity.
    - unfold len. lia. }
  assert (F : parseTree obj <> Fatal) by apply parseTree_loop_not_fatal.
  destruct (parseTree obj); eauto; congruence.
Qed.

(** ** Plain entries are read back unchanged *)

Lemma plain_fixed (e : RawEntry.t) : plain_entry e -> fixed_entry e.
Proof. intros ((Hl & _) & Hn & _ & Hh). repeat split; assumption. Qed.

Lemma clean_not_SPACE (m : bytes) :
  Forall (fun c => clean c = true) m -> ~ In SPACE m.
Proof.
  intros H Hin. rewrite Forall_forall in H. apply H in Hin. discriminate Hin.
Qed.

Lemma plain_valid (e : RawEntry.t) : plain_entry e -> valid_entry e.
Proof.
  intros ((_ & Hc) & Hn & _ & Hh). repeat split; auto.
  apply clean_not_SPACE. exact Hc.
Qed.

Lemma plain_read_entry (e : RawEntry.t) : plain_entry e -> read_entry e = entry_of e.
Proof.
  intros ((Hl & Hc) & Hn & Ht & Hh). destruct e as [m n h]; simpl in *.
  unfold read_entry, entry_of, mode_window, name_window.
  cbn [RawEntry.mode RawEntry.name RawEntry.hash].
  destruct Hl as [Hl | Hl].
  - assert (E1 : firstn 6 (m ++ [SPACE]) = m ++ [SPACE]).
    { apply firstn_all2. rewrite length_app, Hl. simpl. lia. }
    assert (E2 : skipn 6 (m ++ [SPACE] ++ n) = n).
    { rewrite app_assoc.
      rewrite skipn_app, skipn_all2 by (rewrite length_app, Hl; simpl; lia).
      rewrite length_app, Hl. reflexivity. }
    rewrite E1, E2, (TrimSpace_clean_space _ Hc), Ht. reflexivity.
  - assert (E1 : firstn 6 (m ++ [SPACE]) = m).
    { rewrite firstn_app, Hl, Nat.sub_diag, firstn_O, app_nil_r.
      rewrite <- Hl. apply firstn_all. }
    assert (E2 : skipn 6 (m ++ [SPACE] ++ n) = SPACE :: n).
    { rewrite skipn_app, skipn_all2 by lia. rewrite Hl. reflexivity. }
    rewrite E1, E2, (TrimSpace_clean _ Hc), TrimSpace_space_cons, Ht.
    reflexivity.
Qed.

Lemma map_read_entry_plain (es : list RawEntry.t) :
  Forall plain_entry es -> map read_entry es = map entry_of es.
Proof.
  induction 1 as [|e es He _ IH]; [reflexivity|].
  simpl. rewrite (plain_read_entry _ He), IH. reflexivity.
Qed.

(** ** The delimiter-scanning decoder on the grammar *)

Lemma scan_to_found (d : byte) (a b : bytes) :
  ~ In d a -> scan_to d (a ++ d :: b) = Some (a, b).
Proof.
  intros H. induction a as [|c a IH]; simpl.
  - rewrite (Byte.byte_dec_lb (eq_refl d)). reflexivity.
  - destruct (Byte.eqb c d) eqn:E.
    + apply Byte.byte_dec_bl in E. subst c. exfalso. apply H. left. reflexivity.
    + rewrite IH; [reflexivity|]. intros Hin. apply H. right. exact Hin.
Qed.

Lemma scanTree_step (steps : nat) (body : bytes) :
  body <> [] ->
  scanTree (S steps) body
  = match scan_to SPACE body with
    | None => None
    | Some (mode, r1) =>
      match scan_to NUL r1 with
      | None => None
      | Some (name, r2) =>
        if (length r2 <? 20)%nat then None
        else match scanTree steps (skipn 20 r2) with
             | None => None
             | Some es =>
               Some (TreeEntry.mk mode name (Go.EncodeToString (firstn 20 r2))
                       :: es)
             end
      end
    end.
Proof. destruct body; [congruence | reflexivity]. Qed.

Lemma scanTree_encode_tree (es : list RawEntry.t) :
  Forall valid_entry es ->
  forall steps, (length es <= steps)%nat ->
  scanTree steps (encode_tree es) = Some (map entry_of es).
Proof.
  induction 1 as [|e es (Hm & Hn & Hh) _ IH]; intros steps Hs.
  - destruct steps; reflexivity.
  - destruct steps as [|steps]; [simpl in Hs; lia|].
    change (encode_tree (e :: es)) with (encode_entry e ++ encode_tree es).
    unfold encode_entry. destruct e as [m n h]; simpl in Hm, Hn, Hh.
    cbn [RawEntry.mode RawEntry.name RawEntry.hash].
    assert (Eb : (m ++ [SPACE] ++ n ++ [NUL] ++ h) ++ encode_tree es
                 = m ++ SPACE :: (n ++ NUL :: (h ++ encode_tree es))).
    { rewrite <- !app_assoc. reflexivity. }
    rewrite Eb. rewrite scanTree_step by (destruct m; discriminate).
    rewrite (scan_to_found SPACE m _ Hm).
    rewrite (scan_to_found NUL n _ Hn).
    replace (length (h ++ encode_tree es) <? 20)%nat with false
      by (symmetry; apply Nat.ltb_ge; rewrite length_app; lia).
    replace (skipn 20 (h ++ encode_tree es)) with (encode_tree es)
      by (rewrite skipn_app, skipn_all2, Hh, Nat.sub_diag by lia; reflexivity).
    replace (firstn 20 (h ++ encode_tree es)) with h
      by (rewrite firstn_app, Hh, Nat.sub_diag, firstn_O, app_nil_r, <- Hh,
            firstn_all; reflexivity).
    rewrite IH by (simpl in Hs; lia). reflexivity.
Qed.

Lemma valid_entry_length (e : RawEntry.t) :
  valid_entry e -> (1 <= length (encode_entry e))%nat.
Proof.
  intros _. unfold encode_entry. rewrite !length_app. simpl. lia.
Qed.

Lemma scanTree_body_encode_tree (es : list RawEntry.t) :
  Forall valid_entry es ->
  scanTree_body (encode_tree es) = Some (map entry_of es).
Proof.
  intros H. unfold scanTree_body. apply scanTree_encode_tree; [exact H|].
  clear H. induction es as [|e es IH]; [simpl; lia|].
  change (encode_tree (e :: es)) with (encode_entry e ++ encode_tree es).
  rewrite length_app. pose proof (valid_entry_length e).
  unfold encode_entry in *. rewrite !length_app in *. simpl in *. lia.
Qed.

(** ** Re-encoding *)

Lemma reencode_entry_of (e : RawEntry.t) :
  length (RawEntry.hash e) = 20%nat ->
  reencode_entry (entry_of e) = Some (encode_entry e).
Proof.
  intros Hh. unfold reencode_entry, entry_of. simpl.
  rewrite DecodeString_EncodeToString, Hh. reflexivity.
Qed.

Lemma reencode_tree_entries (es : list RawEntry.t) :
  Forall (fun e => length (RawEntry.hash e) = 20%nat) es ->
  reencode_tree (map entry_of es) = Some (encode_tree es).
Proof.
  induction 1 as [|e es He _ IH]; [reflexivity|].
  cbn [map reencode_tree]. rewrite (reencode_entry_of _ He), IH. reflexivity.
Qed.

(** ** [strings.TrimSpace] leaves no ASCII white space at either end *)

Lemma high_not_space (c : byte) :
  Go.RuneSelf <= byte_val c -> Go.asciiSpace c = false.
Proof.
  intros H. destruct (Go.asciiSpace c) eqn:E; [|reflexivity].
  apply asciiSpace_ascii in E. apply Z.leb_gt in E. lia.
Qed.

Lemma DecodeRuneInString_space (c : byte) (t : bytes) :
  Go.asciiSpace c = true ->
  Go.DecodeRuneInString (c :: t) = (byte_val c, 1)
  /\ Go.IsSpace (byte_val c) = true.
Proof. destruct c; try discriminate; intros _; split; reflexivity. Qed.

Lemma DecodeRuneInString_not_space (c : byte) (t : bytes) :
  Go.IsSpace (fst (Go.DecodeRuneInString (c :: t))) = false ->
  Go.asciiSpace c = false.
Proof.
  intros H. destruct (Go.asciiSpace c) eqn:E; [|reflexivity].
  destruct (DecodeRuneInString_space c t E) as (E1 & E2).
  rewrite E1 in H. simpl in H. congruence.
Qed.

Lemma DecodeRuneInString_width (s : bytes) :
  0 <= snd (Go.DecodeRuneInString s) <= 4
  /\ (s <> [] -> 1 <= snd (Go.DecodeRuneInString s)).
Proof.
  unfold Go.DecodeRuneInString. cbv zeta.
  repeat match goal with
         | |- context [match ?l with [] => _ | _ :: _ => _ end] => destruct l
         | |- context [if ?b then _ else _] => destruct b
         end; simpl; split; try lia; congruence.
Qed.

(** The bytes of a decoded rune that does not start with an ASCII byte end
    in a byte that is not ASCII. *)
Lemma DecodeRuneInString_last (c : byte) (t : bytes) :
  Go.RuneSelf <= byte_val c ->
  exists k x,
    firstn (Z.to_nat (snd (Go.DecodeRuneInString (c :: t)))) (c :: t) = k ++ [x]
    /\ Go.asciiSpace x = false.
Proof.
  intros Hc. unfold Go.DecodeRuneInString. cbv zeta.
  set (lo := if byte_val c =? 224 then 160
             else if byte_val c =? 240 then 144 else 128).
  assert (Hlo : 128 <= lo).
  { unfold lo. destruct (byte_val c =? 224); [lia|].
    destruct (byte_val c =? 240); lia. }
  clearbody lo.
  assert (H1 : exists k x, firstn 1 (c :: t) = k ++ [x] /\ Go.asciiSpace x = false).
  { exists [], c. split; [reflexivity | apply high_not_space; exact Hc]. }
  destruct (byte_val c <? Go.RuneSelf); [exact H1|].
  destruct ((byte_val c <? 194) || (244 <? byte_val c)); [exact H1|].
  destruct (len (c :: t) <? _); [exact H1|].
  destruct t as [|s1 t1]; [exact H1|].
  destruct ((byte_val s1 <? lo) || _) eqn:E1; [exact H1|].
  apply orb_false_iff in E1. destruct E1 as [E1 _]. apply Z.ltb_ge in E1.
  destruct (_ <=? 2).
  { exists [c], s1. split; [reflexivity | apply high_not_space; unfold Go.RuneSelf; lia]. }
  destruct t1 as [|s2 t2]; [exact H1|].
  destruct ((byte_val s2 <? 128) || _) eqn:E2; [exact H1|].
  apply orb_false_iff in E2. destruct E2 as [E2 _]. apply Z.ltb_ge in E2.
  destruct (_ <=? 3).
  { exists [c; s1], s2. split; [reflexivity | apply high_not_space; exact E2]. }
  destruct t2 as [|s3 t3]; [exact H1|].
  destruct ((byte_val s3 <? 128) || _) eqn:E3; [exact H1|].
  apply orb_false_iff in E3. destruct E3 as [E3 _]. apply Z.ltb_ge in E3.
  exists [c; s1; s2], s3. split; [reflexivity | apply high_not_space; exact E3].
Qed.

Lemma firstn_add (a b : nat) (s : bytes) :
  firstn (a + b) s = firstn a s ++ firstn b (skipn a s).
Proof.
  revert s. induction a as [|a IH]; intros s; [reflexivity|].
  destruct s as [|c s]; simpl.
  - rewrite firstn_nil. reflexivity.
  - rewrite IH. reflexivity.
Qed.

Lemma nth_error_skipn (s : bytes) (n : nat) (b : byte) :
  nth_error s n = Some b -> exists t, skipn n s = b :: t.
Proof.
  revert s. induction n as [|n IH]; intros s H; destruct s as [|c s];
    try discriminate.
  - simpl in H. injection H as ->. exists s. reflexivity.
  - simpl in *. apply IH. exact H.
Qed.

Lemma skipn_cons_nth_error (s : bytes) (n : nat) (b : byte) (t : bytes) :
  skipn n s = b :: t -> nth_error s n = Some b.
Proof.
  revert s. induction n as [|n IH]; intros s H; destruct s as [|c s];
    try discriminate.
  - simpl in H. injection H as -> _. reflexivity.
  - simpl in *. apply IH. exact H.
Qed.

Lemma rune_start_back_le (steps : nat) (s : bytes) (start lim : Z) :
  Go.rune_start_back steps s start lim <= start.
Proof.
  revert start. induction steps as [|steps IH]; intros start; simpl; [lia|].
  destruct (start <? lim); [lia|].
  destruct (nth_error s (Z.to_nat start)); [|lia].
  destruct (Go.RuneStart b); [lia|]. specialize (IH (start - 1)). lia.
Qed.

(** The last rune of a non-empty string: its width, and what a rune that is
    not white space says about the byte it starts at. *)
Lemma DecodeLastRuneInString_spec (x : bytes) :
  x <> [] ->
  let '(r, size) := Go.DecodeLastRuneInString x in
  1 <= size <= len x
  /\ (Go.IsSpace r = false ->
      exists b, nth_error x (Z.to_nat (len x - size)) = Some b
                /\ Go.asciiSpace b = false).
Proof.
  intros Hx. unfold Go.DecodeLastRuneInString. cbv zeta.
  assert (Hl : 1 <= len x).
  { destruct x; [congruence|]. rewrite len_cons. pose proof (len_nonneg x). lia. }
  replace (len x =? 0) with false by (symmetry; apply Z.eqb_neq; lia).
  destruct (nth_error x (Z.to_nat (len x - 1))) as [b|] eqn:Eb.
  2:{ apply nth_error_None in Eb. unfold len in *. lia. }
  destruct (byte_val b <? Go.RuneSelf) eqn:Ea.
  { split; [lia|]. intros Hs. exists b. split; [exact Eb|].
    destruct (Go.asciiSpace b) eqn:E; [|reflexivity].
    destruct (DecodeRuneInString_space b [] E) as (_ & E2). congruence. }
  apply Z.ltb_ge in Ea.
  set (start := Z.max 0 (Go.rune_start_back 4 x (len x - 1 - 1)
                                            (Z.max 0 (len x - Go.UTFMax)))).
  assert (Hs : 0 <= start <= len x - 1).
  { unfold start.
    pose proof (rune_start_back_le 4 x (len x - 1 - 1)
                                   (Z.max 0 (len x - Go.UTFMax))). lia. }
  destruct (Go.DecodeRuneInString (skipn (Z.to_nat start) x)) as [r size] eqn:Ed.
  destruct (start + size =? len x) eqn:Ee.
  - apply Z.eqb_eq in Ee. split; [lia|]. intros Hsp.
    replace (len x - size) with start by lia.
    destruct (nth_error x (Z.to_nat start)) as [c|] eqn:Ec.
    2:{ apply nth_error_None in Ec. unfold len in *. lia. }
    exists c. split; [reflexivity|].
    destruct (nth_error_skipn _ _ _ Ec) as (t & Et). rewrite Et in Ed.
    apply (DecodeRuneInString_not_space c t). rewrite Ed. exact Hsp.
  - split; [lia|]. intros _. exists b. split; [exact Eb|].
    apply high_not_space. exact Ea.
Qed.

Lemma eqb_false_r (b : bool) : Bool.eqb b false = negb b.
Proof. destruct b; reflexivity. Qed.

(** [indexFunc(s, IsSpace, false)]: the offset found, if any, is that of a
    byte that is not ASCII white space. *)
Lemma indexFunc_from_spec (steps : nat) :
  forall (s : bytes) (i : Z), 0 <= i ->
  let j := Go.indexFunc_from steps s i Go.IsSpace false in
  j = -1 \/
  (i <= j /\ forall c t, skipn (Z.to_nat (j - i)) s = c :: t ->
                         Go.asciiSpace c = false).
Proof.
  induction steps as [|steps IH]; intros s i Hi; cbn [Go.indexFunc_from].
  - left. reflexivity.
  - destruct s as [|c0 t0]; [left; reflexivity|].
    destruct (Go.DecodeRuneInString (c0 :: t0)) as [r size] eqn:Ed.
    rewrite eqb_false_r.
    destruct (Go.IsSpace r) eqn:Es; cbn [negb].
    + pose proof (DecodeRuneInString_width (c0 :: t0)) as (Hw & Hw1).
      rewrite Ed in Hw, Hw1. cbn [snd] in Hw, Hw1.
      specialize (Hw1 ltac:(discriminate)).
      destruct (IH (skipn (Z.to_nat size) (c0 :: t0)) (i + size) ltac:(lia))
        as [E | (Hj & Hc)].
      * left. exact E.
      * right. split; [lia|]. intros c t Hsk. apply (Hc c t).
        rewrite skipn_skipn. rewrite <- Hsk. f_equal. lia.
    + right. split; [lia|]. intros c t Hsk.
      rewrite Z.sub_diag in Hsk. cbn in Hsk. injection Hsk as -> ->.
      apply (DecodeRuneInString_not_space c t). rewrite Ed. exact Es.
Qed.

Lemma TrimLeftFunc_spec (s : bytes) :
  ~ starts_ws (Go.TrimLeftFunc s Go.IsSpace).
Proof.
  unfold Go.TrimLeftFunc, Go.indexFunc.
  pose proof (indexFunc_from_spec (length s) s 0 ltac:(lia)) as H.
  cbv zeta in H.
  destruct (Go.indexFunc_from (length s) s 0 Go.IsSpace false =? -1) eqn:E.
  - intros (c & t & Ec & _). discriminate.
  - apply Z.eqb_neq in E. destruct H as [H | (_ & H)]; [contradiction|].
    rewrite Z.sub_0_r in H. intros (c & t & Ec & Hc).
    rewrite (H c t Ec) in Hc. discriminate.
Qed.

(** [lastIndexFunc(s, IsSpace, false)]: the offset found, if any, is that
    of a byte that is not ASCII white space. *)
Lemma lastIndexFunc_from_spec (steps : nat) :
  forall (s : bytes) (i : Z), 0 <= i <= len s ->
  let j := Go.lastIndexFunc_from steps s i Go.IsSpace false in
  j = -1 \/
  (0 <= j < i /\ exists b, nth_error s (Z.to_nat j) = Some b
                           /\ Go.asciiSpace b = false).
Proof.
  induction steps as [|steps IH]; intros s i Hi; cbn [Go.lastIndexFunc_from].
  - left. reflexivity.
  - destruct (0 <? i) eqn:E0; [|left; reflexivity]. apply Z.ltb_lt in E0.
    set (x := firstn (Z.to_nat i) s).
    assert (Hx : len x = i).
    { unfold x, len in *. rewrite length_firstn. lia. }
    assert (Hne : x <> []).
    { intros En. rewrite En in Hx. rewrite len_nil in Hx. lia. }
    pose proof (DecodeLastRuneInString_spec x Hne) as Hd.
    destruct (Go.DecodeLastRuneInString x) as [r size].
    destruct Hd as (Hsz & Hsp). rewrite Hx in Hsz, Hsp.
    rewrite eqb_false_r. destruct (Go.IsSpace r) eqn:Es; cbn [negb].
    + destruct (IH s (i - size) ltac:(lia)) as [E | (Hj & Hb)].
      * left. exact E.
      * right. split; [lia | exact Hb].
    + right. split; [lia|]. destruct (Hsp eq_refl) as (b & Eb & Hb).
      exists b. split; [|exact Hb].
      unfold x in Eb. rewrite nth_error_firstn in Eb.
      destruct (Z.to_nat (i - size) <? Z.to_nat i)%nat eqn:El; [exact Eb|].
      discriminate.
Qed.

Lemma ends_with_not_ends_ws (k : bytes) (x : byte) :
  Go.asciiSpace x = false -> ~ ends_ws (k ++ [x]).
Proof.
  intros Hx (t & c & E & Hc). apply app_inj_tail in E. destruct E as [_ <-].
  congruence.
Qed.

Lemma not_ends_ws_nil : ~ ends_ws [].
Proof. intros (t & c & E & _). destruct t; discriminate. Qed.

Lemma TrimRightFunc_spec (s : bytes) :
  ~ ends_ws (Go.TrimRightFunc s Go.IsSpace)
  /\ exists suffix, s = Go.TrimRightFunc s Go.IsSpace ++ suffix.
Proof.
  split.
  2:{ unfold Go.TrimRightFunc. cbv zeta. eexists. symmetry. apply firstn_skipn. }
  unfold Go.TrimRightFunc, Go.lastIndexFunc. cbv zeta.
  pose proof (lastIndexFunc_from_spec (S (length s)) s (len s)
                ltac:(pose proof (len_nonneg s); lia)) as H.
  cbv zeta in H.
  set (j := Go.lastIndexFunc_from (S (length s)) s (len s) Go.IsSpace false) in *.
  destruct H as [E | (Hj & b & Eb & Hb)].
  - rewrite E. cbn. apply not_ends_ws_nil.
  - replace (0 <=? j) with true by (symmetry; apply Z.leb_le; lia).
    rewrite Eb. destruct (nth_error_skipn _ _ _ Eb) as (t & Et).
    destruct (Go.RuneSelf <=? byte_val b) eqn:Eh.
    + apply Z.leb_le in Eh.
      destruct (DecodeRuneInString_last b t Eh) as (k & x & Ek & Hx).
      rewrite Et. pose proof (DecodeRuneInString_width (b :: t)) as (Hw & _).
      replace (Z.to_nat (j + snd (Go.DecodeRuneInString (b :: t))))
        with (Z.to_nat j + Z.to_nat (snd (Go.DecodeRuneInString (b :: t))))%nat
        by lia.
      rewrite firstn_add, Et, Ek, app_assoc.
      apply ends_with_not_ends_ws. exact Hx.
    + replace (Z.to_nat (j + 1)) with (Z.to_nat j + 1)%nat by lia.
      rewrite firstn_add, Et. cbn [firstn].
      apply ends_with_not_ends_ws. exact Hb.
Qed.

Lemma prefix_not_starts_ws (a s suffix : bytes) :
  s = a ++ suffix -> ~ starts_ws s -> ~ starts_ws a.
Proof.
  intros E H (c & t & Ea & Hc). apply H. exists c, (t ++ suffix).
  split; [|exact Hc]. rewrite E, Ea. reflexivity.
Qed.

Lemma TrimFunc_spec (s : bytes) : ~ ws_edge (Go.TrimFunc s Go.IsSpace).
Proof.
  unfold Go.TrimFunc.
  destruct (TrimRightFunc_spec (Go.TrimLeftFunc s Go.IsSpace)) as (He & sfx & Ep).
  intros [Hs | Hs]; [|exact (He Hs)].
  exact (prefix_not_starts_ws _ _ _ Ep (TrimLeftFunc_spec s) Hs).
Qed.

Lemma TrimSpace_stop_spec (rs : bytes) :
  ~ ends_ws (Go.TrimSpace_stop rs)
  /\ exists suffix, rev rs = Go.TrimSpace_stop rs ++ suffix.
Proof.
  induction rs as [|c rs IH]; cbn [Go.TrimSpace_stop].
  - split; [apply not_ends_ws_nil | exists []; reflexivity].
  - destruct (Go.RuneSelf <=? byte_val c); [apply TrimRightFunc_spec|].
    destruct (Go.asciiSpace c) eqn:Ec.
    + destruct IH as (He & sfx & Ep). split; [exact He|].
      exists (sfx ++ [c]). cbn [rev]. rewrite Ep at 1. symmetry. apply app_assoc.
    + split; [|exists []; symmetry; apply app_nil_r].
      cbn [rev]. apply ends_with_not_ends_ws. exact Ec.
Qed.

(** The string [strings.TrimSpace] returns neither begins nor ends with an
    ASCII white-space byte. *)
Lemma TrimSpace_no_ws_edge (s : bytes) : ~ ws_edge (Go.TrimSpace s).
Proof.
  induction s as [|c s IH]; cbn [Go.TrimSpace].
  - intros [(c & t & E & _) | H]; [discriminate | exact (not_ends_ws_nil H)].
  - destruct (Go.RuneSelf <=? byte_val c); [apply TrimFunc_spec|].
    destruct (Go.asciiSpace c) eqn:Ec; [exact IH|].
    destruct (TrimSpace_stop_spec (rev (c :: s))) as (He & sfx & Ep).
    rewrite rev_involutive in Ep.
    intros [(x & t & Ex & Hx) | H]; [|exact (He H)].
    rewrite Ex in Ep. injection Ep as <- _. congruence.
Qed.

(** A string with ASCII white space at either end is changed by
    [strings.TrimSpace]. *)
Lemma TrimSpace_changes (s : bytes) : ws_edge s -> Go.TrimSpace s <> s.
Proof.
  intros H E. apply (TrimSpace_no_ws_edge s). rewrite E. exact H.
Qed.

(** ** Every entry the tree decoder returns is trimmed *)

Lemma trimmed_nil : trimmed [].
Proof.
  intros [(c & t & E & _) | H]; [discriminate | exact (not_ends_ws_nil H)].
Qed.

Lemma parseTree_loop_trimmed (steps : nat) :
  forall (Content : bytes) (item start stop : Z) (m n : bytes)
         (entries out : list TreeEntry.t),
  trimmed m -> trimmed n ->
  Forall (fun d => trimmed (TreeEntry.Mode d) /\ trimmed (TreeEntry.Name d))
         entries ->
  parseTree_loop steps Content item start stop m n entries = Ok out ->
  Forall (fun d => trimmed (TreeEntry.Mode d) /\ trimmed (TreeEntry.Name d)) out.
Proof.
  induction steps as [|steps IH]; intros Content item start stop m n entries out
    Hm Hn He; cbn [parseTree_loop];
    destruct (stop <=? len Content);
    try discriminate; try (intros E; injection E as <-; exact He).
  destruct (item =? 1).
  { destruct (slice Content start stop) as [s| | |]; cbn [bind];
      try discriminate.
    apply IH; auto. apply TrimSpace_no_ws_edge. }
  destruct (item =? 2).
  { destruct (if start <? 0 then Panic else _) as [i| | |]; cbn [bind];
      try discriminate.
    destruct (slice Content start i) as [s| | |]; cbn [bind]; try discriminate.
    apply IH; auto. apply TrimSpace_no_ws_edge. }
  destruct (item =? 3).
  { destruct (slice Content start stop) as [s| | |]; cbn [bind];
      try discriminate.
    apply IH; auto. apply Forall_app. split; [exact He|].
    constructor; [|constructor]. split; assumption. }
  apply IH; auto.
Qed.

(** Whatever the body, the mode and the name of every returned entry are
    free of ASCII white space at both ends. *)
Lemma parseTree_returns_trimmed (obj : Object.t) (entries : list TreeEntry.t) :
  parseTree obj = Ok entries ->
  Forall (fun d => trimmed (TreeEntry.Mode d) /\ trimmed (TreeEntry.Name d))
         entries.
Proof.
  unfold parseTree. apply parseTree_loop_trimmed;
    [apply trimmed_nil | apply trimmed_nil | constructor].
Qed.

(** ** The commit decoder *)

Lemma object_id_no_NL (s : bytes) : object_id s -> ~ In NL s.
Proof.
  intros (_ & H) Hin. rewrite Forall_forall in H. apply H in Hin.
  discriminate Hin.
Qed.

Lemma Split_nl_nonempty (s : bytes) : exists l ls, Go.Split_nl s = l :: ls.
Proof.
  induction s as [|c s (l & ls & IH)]; simpl; [eauto|].
  destruct (Byte.eqb c "010"); [eauto|]. rewrite IH. eauto.
Qed.

Lemma Split_nl_line (l rest : bytes) :
  ~ In NL l -> Go.Split_nl (l ++ NL :: rest) = l :: Go.Split_nl rest.
Proof.
  intros H. induction l as [|c l IH]; [reflexivity|].
  cbn [app Go.Split_nl].
  assert (Hc : Byte.eqb c "010" = false).
  { destruct (Byte.eqb c "010") eqn:E; [|reflexivity].
    apply Byte.byte_dec_bl in E. subst c. exfalso. apply H. left. reflexivity. }
  rewrite Hc, IH; [reflexivity|]. intros Hin. apply H. right. exact Hin.
Qed.

Lemma Split_nl_no_NL (l : bytes) : ~ In NL l -> Go.Split_nl l = [l].
Proof.
  intros H. induction l as [|c l IH]; [reflexivity|].
  cbn [Go.Split_nl].
  assert (Hc : Byte.eqb c "010" = false).
  { destruct (Byte.eqb c "010") eqn:E; [|reflexivity].
    apply Byte.byte_dec_bl in E. subst c. exfalso. apply H. left. reflexivity. }
  rewrite Hc, IH; [reflexivity|]. intros Hin. apply H. right. exact Hin.
Qed.

(** The first line of a string that begins with bytes other than newline
    begins with those bytes. *)
Lemma Split_nl_head (hd tl : bytes) :
  ~ In NL hd -> exists l ls, Go.Split_nl (hd ++ tl) = (hd ++ l) :: ls.
Proof.
  intros H. induction hd as [|c hd IH].
  - apply Split_nl_nonempty.
  - cbn [app Go.Split_nl].
    assert (Hc : Byte.eqb c "010" = false).
    { destruct (Byte.eqb c "010") eqn:E; [|reflexivity].
      apply Byte.byte_dec_bl in E. subst c. exfalso. apply H. left. reflexivity. }
    rewrite Hc. destruct IH as (l & ls & E).
    { intros Hin. apply H. right. exact Hin. }
    rewrite E. exists l, ls. reflexivity.
Qed.

Lemma Split_nl_parent_lines (ps : list bytes) (tail : bytes) :
  Forall object_id ps ->
  Go.Split_nl (concat (map parent_line ps) ++ tail)
  = map (fun p => lit "parent " ++ p) ps ++ Go.Split_nl tail.
Proof.
  induction 1 as [|p ps Hp _ IH]; [reflexivity|].
  cbn [map concat]. unfold parent_line at 1.
  replace (((lit "parent " ++ p ++ [NL]) ++ concat (map parent_line ps)) ++ tail)
    with ((lit "parent " ++ p) ++ NL :: (concat (map parent_line ps) ++ tail))
    by (rewrite <- !app_assoc; reflexivity).
  rewrite Split_nl_line, IH; [reflexivity|].
  intros Hin. apply in_app_or in Hin. destruct Hin as [Hin | Hin].
  - vm_compute in Hin. intuition discriminate.
  - exact (object_id_no_NL _ Hp Hin).
Qed.

(** The loop accepts a run of parent lines. *)
Lemma parseCommit_loop_parents (ps : list bytes) :
  Forall object_id ps ->
  forall (lines acc : list bytes),
  parseCommit_loop (map (fun p => lit "parent " ++ p) ps ++ lines) acc
  = parseCommit_loop lines (acc ++ ps).
Proof.
  induction 1 as [|p ps (Hl & _) _ IH]; intros lines acc.
  - rewrite app_nil_r. reflexivity.
  - cbn [map app parseCommit_loop]. unfold slice_to.
    apply length_len in Hl.
    replace (lit "parent " ++ p) with ([] ++ lit "parent" ++ (lit " " ++ p))
      by reflexivity.
    rewrite (slice_middle [] (lit "parent") (lit " " ++ p)) by reflexivity.
    cbn [bind]. rewrite bytes_eqb_refl.
    replace ([] ++ lit "parent" ++ (lit " " ++ p))
      with (lit "parent " ++ p ++ []) by (rewrite app_nil_r; reflexivity).
    rewrite (slice_middle (lit "parent ") p []) by (rewrite ?Hl; reflexivity).
    cbn [bind]. rewrite IH, <- app_assoc. reflexivity.
Qed.

Lemma parseCommit_header (T : bytes) (ps : list bytes) (tail : bytes)
      (obj : Object.t) :
  object_id T -> Forall object_id ps ->
  Object.Content obj = commit_header T ps ++ tail ->
  parseCommit obj
  = (parents <- parseCommit_loop (Go.Split_nl tail) ps ;;
     Ok (Commit.mk T parents)).
Proof.
  intros (HT & _) Hps HC. unfold parseCommit. rewrite HC.
  apply length_len in HT. unfold commit_header.
  set (rest := concat (map parent_line ps) ++ tail).
  replace ((lit "tree " ++ T ++ [NL] ++ concat (map parent_line ps)) ++ tail)
    with (lit "tree " ++ T ++ ([NL] ++ rest))
    by (unfold rest; rewrite <- !app_assoc; reflexivity).
  rewrite (slice_middle (lit "tree ") T ([NL] ++ rest)) by (rewrite ?HT; reflexivity).
  cbn [bind]. unfold slice_from.
  replace (lit "tree " ++ T ++ [NL] ++ rest)
    with ((lit "tree " ++ T ++ [NL]) ++ rest ++ [])
    by (rewrite app_nil_r, <- !app_assoc; reflexivity).
  rewrite (slice_middle (lit "tree " ++ T ++ [NL]) rest [])
    by (lens; rewrite ?HT; change (len (lit "tree ")) with 5; lia).
  cbn [bind]. unfold rest.
  rewrite (Split_nl_parent_lines _ _ Hps), (parseCommit_loop_parents _ Hps).
  reflexivity.
Qed.

(** ** The header parser *)

Lemma findFirstMatch_range_none (d : byte) (start : Z) (rest : bytes) (i : Z) :
  ~ In d rest -> findFirstMatch_range d start rest i = -1.
Proof.
  revert i. induction rest as [|c rest IH]; intros i H; [reflexivity|].
  cbn [findFirstMatch_range].
  destruct (Byte.eqb c d) eqn:E.
  - apply Byte.byte_dec_bl in E. subst c. exfalso. apply H. left. reflexivity.
  - apply IH. intros Hin. apply H. right. exact Hin.
Qed.

Lemma findFirstMatch_range_found (d : byte) (start : Z) (a b : bytes) (i : Z) :
  ~ In d a -> findFirstMatch_range d start (a ++ d :: b) i = start + i + len a.
Proof.
  revert i. induction a as [|c a IH]; intros i H.
  - cbn [app findFirstMatch_range]. rewrite (Byte.byte_dec_lb (eq_refl d)).
    rewrite len_nil. lia.
  - cbn [app findFirstMatch_range].
    destruct (Byte.eqb c d) eqn:E.
    + apply Byte.byte_dec_bl in E. subst c. exfalso. apply H. left. reflexivity.
    + rewrite IH, len_cons; [lia|]. intros Hin. apply H. right. exact Hin.
Qed.

Lemma slice_from_zero (s : bytes) : slice_from s 0 = Ok s.
Proof.
  unfold slice_from. pose proof (len_nonneg s). rewrite slice_ok by lia.
  rewrite Z.sub_0_r. unfold len. rewrite Nat2Z.id. cbn [Z.to_nat skipn].
  rewrite firstn_all. reflexivity.
Qed.

Lemma slice_from_app (a b : bytes) (lo : Z) :
  lo = len a -> slice_from (a ++ b) lo = Ok b.
Proof.
  intros ->. unfold slice_from.
  rewrite <- (app_nil_r b) at 1.
  rewrite (slice_middle a b []); [reflexivity | reflexivity|].
  apply len_app.
Qed.

(** A body without a space byte: [findFirstMatch] answers -1 and [getType]
    slices with it. *)
Lemma getType_no_space (data : bytes) : ~ In SPACE data -> getType data = Panic.
Proof.
  intros H. unfold getType, findFirstMatch. rewrite slice_from_zero. cbn [bind].
  rewrite (findFirstMatch_range_none _ _ _ _ H). reflexivity.
Qed.

Lemma getType_space (a b : bytes) :
  ~ In SPACE a -> getType (a ++ SPACE :: b) = Ok (Go.TrimSpace a, len a).
Proof.
  intros H. unfold getType, findFirstMatch. rewrite slice_from_zero. cbn [bind].
  rewrite (findFirstMatch_range_found _ _ _ _ _ H). cbn [Z.add].
  rewrite (slice_middle [] a (SPACE :: b)); [reflexivity | reflexivity|].
  rewrite len_nil. reflexivity.
Qed.

(** No zero byte after the first space: [findFirstMatch] answers -1 and
    [getSize] slices with it. *)
Lemma getSize_no_nul (a b : bytes) :
  ~ In NUL b -> getSize (len a) (a ++ SPACE :: b) = Panic.
Proof.
  intros H. unfold getSize, findFirstMatch.
  replace (a ++ SPACE :: b) with ((a ++ [SPACE]) ++ b)
    by (rewrite <- app_assoc; reflexivity).
  rewrite (slice_from_app (a ++ [SPACE]) b) by (lens; lia).
  cbn [bind]. rewrite (findFirstMatch_range_none _ _ _ _ H).
  rewrite slice_panic by (pose proof (len_nonneg a); lia). reflexivity.
Qed.

(** ** The graph builder *)

Lemma parseCommit_loop_cases (lines acc : list bytes) :
  parseCommit_loop lines acc = Panic
  \/ exists ps, parseCommit_loop lines acc = Ok ps.
Proof.
  revert acc. induction lines as [|line lines IH]; intros acc; cbn [parseCommit_loop].
  - eauto.
  - unfold slice_to.
    destruct (slice_cases line 0 6) as [-> | (x & ->)]; cbn [bind]; [auto|].
    destruct (bytes_eqb x (lit "parent")); [|eauto].
    destruct (slice_cases line 7 47) as [-> | (y & ->)]; cbn [bind]; [auto|].
    apply IH.
Qed.

Lemma parseCommit_cases (obj : Object.t) :
  parseCommit obj = Panic \/ exists c, parseCommit obj = Ok c.
Proof.
  unfold parseCommit, slice_from.
  destruct (slice_cases (Object.Content obj) 5 45) as [-> | (x & ->)];
    cbn [bind]; [auto|].
  destruct (slice_cases (Object.Content obj) 46 (len (Object.Content obj)))
    as [-> | (y & ->)]; cbn [bind]; [auto|].
  destruct (parseCommit_loop_cases (Go.Split_nl y) []) as [-> | (ps & ->)];
    cbn [bind]; eauto.
Qed.

(** Visiting one object returns the extended graph or stops the run. *)
Lemma Repo_toJson_visit_cases (g : Graph.t) (obj : Object.t) :
  aborts (Repo_toJson_visit g obj) \/ exists g', Repo_toJson_visit g obj = Ok g'.
Proof.
  unfold Repo_toJson_visit, Object_toJson, aborts.
  destruct (bytes_eqb (Object.Type_ obj) (lit "tree")) eqn:Et.
  - apply bytes_eqb_eq in Et. rewrite Et. change (bytes_eqb _ _) with false.
    cbv iota.
    destruct (parseTree_terminates obj) as [-> | (es & ->)]; cbn [bind Unmarshal];
      eauto.
  - destruct (bytes_eqb (Object.Type_ obj) (lit "commit")) eqn:Ec.
    + destruct (parseCommit_cases obj) as [-> | (c & ->)]; cbn [bind Unmarshal];
        eauto.
    + destruct (bytes_eqb (Object.Type_ obj) (lit "blob")); cbn [bind Unmarshal];
        eauto.
Qed.

Lemma Repo_toJson_loop_app (objs : list Object.t) (obj : Object.t) (g0 : Graph.t) :
  Repo_toJson_loop (objs ++ [obj]) g0
  = (g <- Repo_toJson_loop objs g0 ;; Repo_toJson_visit g obj).
Proof.
  revert g0. induction objs as [|o objs IH]; intros g0;
    cbn [app Repo_toJson_loop bind].
  - destruct (Repo_toJson_visit g0 obj); reflexivity.
  - destruct (Repo_toJson_visit g0 o); cbn [bind]; auto.
Qed.

Lemma Repo_toJson_loop_aborts (objs : list Object.t) (obj : Object.t) :
  In obj objs -> Object_toJson obj = Panic ->
  forall g, aborts (Repo_toJson_loop objs g).
Proof.
  intros Hin Hp. induction objs as [|o objs IH]; [contradiction|].
  intros g. cbn [Repo_toJson_loop].
  destruct (Repo_toJson_visit_cases g o) as [[E | E] | (g' & E)].
  - rewrite E. left. reflexivity.
  - rewrite E. right. reflexivity.
  - destruct Hin as [-> | Hin].
    + unfold Repo_toJson_visit in E. rewrite Hp in E. discriminate E.
    + rewrite E. cbn [bind]. apply IH. exact Hin.
Qed.

Lemma Repo_toJson_visit_commit (g : Graph.t) (obj : Object.t) (c : Commit.t) :
  Object.Type_ obj = lit "commit" -> parseCommit obj = Ok c ->
  Repo_toJson_visit g obj
  = Ok (Graph.mk
          (Graph.nodes g
             ++ [Node.mk (Object.Name obj) (Object.Type_ obj) (JsonCommit c)])
          ((Graph.edges g
              ++ map (fun p => Edge.mk (Object.Name obj) p) (Commit.Parents c))
             ++ [Edge.mk (Object.Name obj) (Commit.Tree c)])).
Proof.
  intros Ht Hc. unfold Repo_toJson_visit, Object_toJson. rewrite Ht, Hc.
  reflexivity.
Qed.

Lemma Repo_toJson_visit_tree (g : Graph.t) (obj : Object.t)
      (entries : list TreeEntry.t) :
  Object.Type_ obj = lit "tree" -> parseTree obj = Ok entries ->
  Repo_toJson_visit g obj
  = Ok (Graph.mk
          (Graph.nodes g
             ++ [Node.mk (Object.Name obj) (Object.Type_ obj) (JsonEntries entries)])
          (Graph.edges g
             ++ map (fun entry => Edge.mk (Object.Name obj) (TreeEntry.Hash entry))
                    entries)).
Proof.
  intros Ht Hc. unfold Repo_toJson_visit, Object_toJson. rewrite Ht, Hc.
  reflexivity.
Qed.

Lemma Repo_toJson_visit_blob (g : Graph.t) (obj : Object.t) :
  Object.Type_ obj = lit "blob" ->
  Repo_toJson_visit g obj
  = Ok (Graph.mk
          (Graph.nodes g
             ++ [Node.mk (Object.Name obj) (Object.Type_ obj) (JsonBlob obj)])
          (Graph.edges g)).
Proof.
  intros Ht. unfold Repo_toJson_visit, Object_toJson. rewrite Ht. reflexivity.
Qed.

(** An object whose header type is none of the three the switch names:
    [Object.toJson] returns zero bytes, [json.Unmarshal] rejects them and
    [log.Fatal] ends the run. *)
Lemma Repo_toJson_visit_unrecognized (g : Graph.t) (obj : Object.t) :
  Object.Type_ obj <> lit "tree" -> Object.Type_ obj <> lit "commit" ->
  Object.Type_ obj <> lit "blob" ->
  Repo_toJson_visit g obj = Fatal.
Proof.
  intros H1 H2 H3. unfold Repo_toJson_visit, Object_toJson.
  rewrite (bytes_eqb_neq _ _ H1), (bytes_eqb_neq _ _ H2), (bytes_eqb_neq _ _ H3).
  reflexivity.
Qed.

(** What one visit adds to the graph: one node, and the edges of the object
    in their order. *)
Lemma Repo_toJson_visit_adds (g g' : Graph.t) (obj : Object.t) :
  Repo_toJson_visit g obj = Ok g' ->
  Graph.edges g' = Graph.edges g ++ object_edges obj
  /\ exists view,
       Graph.nodes g'
       = Graph.nodes g ++ [Node.mk (Object.Name obj) (Object.Type_ obj) view].
Proof.
  unfold Repo_toJson_visit, Object_toJson, object_edges.
  destruct (bytes_eqb (Object.Type_ obj) (lit "tree")) eqn:Et.
  - apply bytes_eqb_eq in Et. rewrite Et. change (bytes_eqb _ _) with false.
    cbv iota. destruct (parseTree obj) as [es| | |]; cbn [bind Unmarshal];
      try discriminate.
    intros E. injection E as <-. cbn [Graph.edges Graph.nodes]. eauto.
  - destruct (bytes_eqb (Object.Type_ obj) (lit "commit")) eqn:Ec.
    + destruct (parseCommit obj) as [c| | |]; cbn [bind Unmarshal];
        try discriminate.
      intros E. injection E as <-. cbn [Graph.edges Graph.nodes].
      rewrite <- app_assoc. eauto.
    + destruct (bytes_eqb (Object.Type_ obj) (lit "blob")); cbn [bind Unmarshal];
        try discriminate.
      intros E. injection E as <-. cbn [Graph.edges Graph.nodes].
      rewrite app_nil_r. eauto.
Qed.

(** A pass that completes has emitted one node per object, in visiting order,
    and the edges of each object as a block, in the same order. *)
Lemma Repo_toJson_loop_graph (objs : list Object.t) :
  forall g0 g, Repo_toJson_loop objs g0 = Ok g ->
  Graph.edges g = Graph.edges g0 ++ flat_map object_edges objs
  /\ map (fun n => (Node.name n, Node.type n)) (Graph.nodes g)
     = map (fun n => (Node.name n, Node.type n)) (Graph.nodes g0)
         ++ map (fun o => (Object.Name o, Object.Type_ o)) objs.
Proof.
  induction objs as [|o objs IH]; intros g0 g; cbn [Repo_toJson_loop].
  - intros E. injection E as <-. cbn [flat_map map]. rewrite !app_nil_r. auto.
  - destruct (Repo_toJson_visit g0 o) as [g1| | |] eqn:Ev; cbn [bind];
      try discriminate.
    intros E. destruct (IH _ _ E) as (He & Hn).
    destruct (Repo_toJson_visit_adds _ _ _ Ev) as (He1 & view & Hn1).
    rewrite He, He1, Hn, Hn1, map_app. cbn [flat_map map Node.name Node.type].
    rewrite <- !app_assoc. auto.
Qed.

Lemma Repo_toJson_graph (r : Repo.t) (g : Graph.t) :
  Repo_toJson r = Ok g ->
  Graph.edges g = flat_map object_edges (map snd (Repo.objects r))
  /\ map (fun n => (Node.name n, Node.type n)) (Graph.nodes g)
     = map (fun o => (Object.Name o, Object.Type_ o)) (map snd (Repo.objects r)).
Proof. intros E. exact (Repo_toJson_loop_graph _ _ _ E). Qed.

(** A file that cannot be read, or does not inflate, ends the run in the
    loader. *)
Lemma newObject_unreadable (env : Env) (object_path : bytes) :
  ReadFile env object_path = None -> newObject env object_path = Fatal.
Proof. intros H. unfold newObject. rewrite H. reflexivity. Qed.

Lemma newObject_corrupt (env : Env) (object_path zlib_bytes : bytes) :
  ReadFile env object_path = Some zlib_bytes -> inflate env zlib_bytes = None ->
  newObject env object_path = Fatal.
Proof. intros H1 H2. unfold newObject. rewrite H1, H2. reflexivity. Qed.

(** A well-formed header: type, size and content are split at the first
    space and the first zero byte after it. *)
Lemma newObject_header (env : Env) (object_path zlib_bytes ty sz content : bytes) :
  ReadFile env object_path = Some zlib_bytes ->
  inflate env zlib_bytes = Some (ty ++ SPACE :: sz ++ NUL :: content) ->
  ~ In SPACE ty -> ~ In NUL sz ->
  newObject env object_path
  = Ok (Object.mk (Go.TrimSpace ty) (Go.TrimSpace sz) object_path
                  (Base env (Dir env object_path) ++ Base env object_path)
                  content).
Proof.
  intros Hr Hi Hty Hsz. unfold newObject. rewrite Hr, Hi.
  rewrite (getType_space _ _ Hty). cbn [bind].
  unfold getSize, findFirstMatch.
  replace (ty ++ SPACE :: sz ++ NUL :: content)
    with ((ty ++ [SPACE]) ++ sz ++ NUL :: content)
    by (rewrite <- app_assoc; reflexivity).
  rewrite (slice_from_app (ty ++ [SPACE]) (sz ++ NUL :: content)) by (lens; lia).
  cbn [bind]. rewrite (findFirstMatch_range_found _ _ _ _ _ Hsz).
  replace ((ty ++ [SPACE]) ++ sz ++ NUL :: content)
    with (ty ++ (SPACE :: sz) ++ NUL :: content)
    by (rewrite <- app_assoc; reflexivity).
  rewrite (slice_middle ty (SPACE :: sz) (NUL :: content)) by (lens; lia).
  cbn [bind]. rewrite TrimSpace_space_cons.
  replace (ty ++ (SPACE :: sz) ++ NUL :: content)
    with ((ty ++ SPACE :: sz ++ [NUL]) ++ content)
    by (rewrite <- !app_assoc; cbn [app]; rewrite <- app_assoc; reflexivity).
  rewrite (slice_from_app (ty ++ SPACE :: sz ++ [NUL]) content)
    by (lens; lia).
  reflexivity.
Qed.

(** * The claims *)

Lemma Forall_clean (m : bytes) :
  forallb clean m = true -> Forall (fun c => clean c = true) m.
Proof. intros H. apply Forall_forall. apply forallb_forall. exact H. Qed.

Lemma Forall_is_hex (m : bytes) :
  forallb is_hex m = true -> Forall (fun c => is_hex c = true) m.
Proof. intros H. apply Forall_forall. apply forallb_forall. exact H. Qed.

(** Facts about concrete entries and identifiers, by evaluation. *)
Ltac by_evaluation :=
  repeat match goal with
         | |- Forall (fun c => clean c = true) _ => apply Forall_clean; reflexivity
         | |- Forall (fun c => is_hex c = true) _ => apply Forall_is_hex; reflexivity
         | |- Forall _ [] => constructor
         | |- Forall _ (_ :: _) => constructor
         | |- plain_entry _ => unfold plain_entry, git_mode
         | |- fixed_entry _ => unfold fixed_entry
         | |- valid_entry _ => unfold valid_entry
         | |- object_id _ => unfold object_id
         | |- _ /\ _ => split
         | |- _ \/ _ => first [left; reflexivity | right; reflexivity]
         | |- ~ In _ _ => vm_compute; intuition discriminate
         | |- _ <> _ => vm_compute; discriminate
         | |- _ = _ => reflexivity
         end.

(** ** Tree decoder *)

(** C1 (as amended).  For every tree body made of entries whose mode is 5 or
    6 ASCII bytes, none of them white space, and whose name neither begins
    nor ends with white space, [parseTree] returns the stored (mode, name,
    hex hash) sequence, in order, and so does the delimiter-scanning decoder.
    [parseTree] itself reads a fixed window of 6 bytes as the mode and trims
    it, scans to the next zero byte for the name and trims it, and hex-encodes
    the next 20 bytes. *)
Theorem C1_parseTree_reads_plain_entries (es : list RawEntry.t) (obj : Object.t) :
  Forall plain_entry es -> Object.Content obj = encode_tree es ->
  parseTree obj = Ok (map entry_of es)
  /\ scanTree_body (Object.Content obj) = Some (map entry_of es).
Proof.
  intros Hes HC. split.
  - rewrite <- (map_read_entry_plain _ Hes).
    apply parseTree_encode_tree; [|exact HC].
    eapply Forall_impl; [|exact Hes]. exact plain_fixed.
  - rewrite HC. apply scanTree_body_encode_tree.
    eapply Forall_impl; [|exact Hes]. exact plain_valid.
Qed.

Lemma C1_witness :
  parseTree (tree_object (lit "aa11") (encode_tree [entry_file; entry_dir]))
  = Ok [entry_of entry_file; entry_of entry_dir]
  /\ scanTree_body (encode_tree [entry_file; entry_dir])
     = Some [entry_of entry_file; entry_of entry_dir].
Proof.
  apply (C1_parseTree_reads_plain_entries [entry_file; entry_dir]
           (tree_object (lit "aa11") (encode_tree [entry_file; entry_dir]))).
  - by_evaluation.
  - reflexivity.
Defined.

(** C1 as stated fails.  A directory named ["b "] under mode 40000: the body
    is well formed and delimiter scanning returns the name with its space,
    [parseTree] returns ["b"].  An entry with the three-character mode 644:
    the 6-byte window swallows the name and its zero byte, and [parseTree]
    returns no entry at all. *)
Lemma C1_counterexample :
  (valid_entry entry_trailing
   /\ scanTree_body (encode_tree [entry_trailing]) = Some [entry_of entry_trailing]
   /\ parseTree (tree_object (lit "aa11") (encode_tree [entry_trailing]))
      = Ok [TreeEntry.mk (lit "40000") (lit "b") (Go.EncodeToString hash_b)]
   /\ parseTree (tree_object (lit "aa11") (encode_tree [entry_trailing]))
      <> Ok [entry_of entry_trailing])
  /\ (valid_entry entry_short_mode
      /\ scanTree_body (encode_tree [entry_short_mode])
         = Some [entry_of entry_short_mode]
      /\ parseTree (tree_object (lit "aa11") (encode_tree [entry_short_mode]))
         = Ok []).
Proof.
  split; [split; [by_evaluation|] | split; [by_evaluation|]];
    repeat split; try reflexivity.
  vm_compute. discriminate.
Qed.

(** C2 (as amended).  A tree body cut off inside an entry, all of whose
    entries, the cut one included, have a mode of 5 or 6 bytes (as git
    writes them), raises no error: when the bytes left of the cut entry are
    not exactly 6, the loop guard ends the decode and [parseTree] returns
    the entries that precede the cut, as it reads them (mode and name
    trimmed), a short and possibly empty list. *)
Theorem C2_truncated_tree_returns_prefix
        (es : list RawEntry.t) (e : RawEntry.t) (t u : bytes) (obj : Object.t) :
  Forall fixed_entry es -> fixed_entry e ->
  t ++ u = encode_entry e -> u <> [] -> len t <> 6 ->
  Object.Content obj = encode_tree es ++ t ->
  parseTree obj = Ok (map read_entry es).
Proof.
  intros Hes He Etu Hu H6 HC.
  destruct (parseTree_prefix es t obj Hes HC) as (steps & m & n & E).
  rewrite E.
  destruct (cut_entry_shape e t u He Etu Hu H6)
    as [Hlt | (w & t' & Et & Hw & Ht' & Hcut)].
  - apply parseTree_loop_done. lens. lia.
  - rewrite Et. apply parseTree_loop_cut; assumption.
Qed.

Lemma C2_witness :
  parseTree (tree_object (lit "aa11") body_cut) = Ok (map read_entry [entry_file]).
Proof.
  apply (C2_truncated_tree_returns_prefix [entry_file] entry_dir
           (firstn 12 (encode_entry entry_dir))
           (skipn 12 (encode_entry entry_dir))
           (tree_object (lit "aa11") body_cut)).
  - by_evaluation.
  - by_evaluation.
  - apply firstn_skipn.
  - vm_compute. discriminate.
  - vm_compute. discriminate.
  - reflexivity.
Defined.

(** C2 as stated fails.  The body [body_cut] ends four bytes into the hash
    of its second entry: delimiter scanning reports it truncated, [parseTree]
    returns the first entry alone, as if the tree had one entry.  A body of
    exactly six bytes makes [parseTree] panic: the name scan indexes the byte
    after the last. *)
Lemma C2_counterexample :
  (scanTree_body body_cut = None
   /\ parseTree (tree_object (lit "aa11") body_cut) = Ok [entry_of entry_file])
  /\ parseTree (tree_object (lit "aa11") (lit "100644")) = Panic.
Proof. repeat split; reflexivity. Qed.

(** Why C2 asks for modes of 5 or 6 bytes: after a whole entry of mode 644
    the fixed window has already swallowed the name, and the same cut body
    decodes to no entry at all, not to the entry before the cut. *)
Lemma parseTree_cut_after_short_mode :
  parseTree (tree_object (lit "aa11")
               (encode_tree [entry_short_mode]
                  ++ firstn 12 (encode_entry entry_dir)))
  = Ok [].
Proof. reflexivity. Qed.

(** C7 (as amended).  For every tree body made of entries whose mode is 5 or
    6 ASCII bytes, none of them white space, and whose name neither begins
    nor ends with white space, decoding with [parseTree] and re-encoding
    each entry as mode, space, name, zero byte and the 20 raw hash bytes, in
    entry order, gives back the body. *)
Theorem C7_plain_tree_roundtrip (es : list RawEntry.t) (obj : Object.t) :
  Forall plain_entry es -> Object.Content obj = encode_tree es ->
  exists ds, parseTree obj = Ok ds /\ reencode_tree ds = Some (Object.Content obj).
Proof.
  intros Hes HC. exists (map entry_of es). split.
  - rewrite <- (map_read_entry_plain _ Hes).
    apply parseTree_encode_tree; [|exact HC].
    eapply Forall_impl; [|exact Hes]. exact plain_fixed.
  - rewrite HC. apply reencode_tree_entries.
    eapply Forall_impl; [|exact Hes]. intros e (_ & _ & _ & Hh). exact Hh.
Qed.

Lemma C7_witness :
  exists ds,
    parseTree (tree_object (lit "aa11") (encode_tree [entry_file; entry_dir]))
    = Ok ds
    /\ reencode_tree ds = Some (encode_tree [entry_file; entry_dir]).
Proof.
  apply (C7_plain_tree_roundtrip [entry_file; entry_dir]
           (tree_object (lit "aa11") (encode_tree [entry_file; entry_dir]))).
  - by_evaluation.
  - reflexivity.
Defined.

(** C7 as stated fails.  A file named [" a"] under mode 100644: the body is
    well formed, [parseTree] returns the name ["a"], and re-encoding the
    result gives a body one byte shorter than the original. *)
Lemma C7_counterexample :
  valid_entry entry_leading
  /\ exists ds,
       parseTree (tree_object (lit "aa11") (encode_tree [entry_leading])) = Ok ds
       /\ reencode_tree ds
          = Some (encode_tree [RawEntry.mk (lit "100644") (lit "a") hash_a])
       /\ reencode_tree ds <> Some (encode_tree [entry_leading]).
Proof.
  split.
  - by_evaluation.
  - eexists. split; [vm_compute; reflexivity|].
    split; [reflexivity | vm_compute; discriminate].
Qed.

(** C10.  [parseTree] trims the mode and the name it returns: for every body
    of entries with a 5- or 6-byte mode, the decoded mode is the trimmed
    6-byte window and the decoded name the trimmed bytes up to the zero
    byte; neither begins or ends with an ASCII white-space byte, so a stored
    mode or name that does is never returned verbatim. *)
Theorem C10_parseTree_trims_fields (es : list RawEntry.t) (obj : Object.t) :
  Forall fixed_entry es -> Object.Content obj = encode_tree es ->
  parseTree obj = Ok (map read_entry es)
  /\ Forall (fun e =>
               ~ ws_edge (TreeEntry.Mode (read_entry e))
               /\ ~ ws_edge (TreeEntry.Name (read_entry e))
               /\ (ws_edge (RawEntry.mode e) ->
                   TreeEntry.Mode (read_entry e) <> RawEntry.mode e)
               /\ (ws_edge (RawEntry.name e) ->
                   TreeEntry.Name (read_entry e) <> RawEntry.name e)) es.
Proof.
  intros Hes HC. split; [apply parseTree_encode_tree; assumption|].
  apply Forall_forall. intros e _.
  pose proof (TrimSpace_no_ws_edge (mode_window e)) as Hm.
  pose proof (TrimSpace_no_ws_edge (name_window e)) as Hn.
  cbn [read_entry TreeEntry.Mode TreeEntry.Name].
  repeat split; try assumption.
  - intros Hw E. rewrite E in Hm. exact (Hm Hw).
  - intros Hw E. rewrite E in Hn. exact (Hn Hw).
Qed.

Lemma C10_witness :
  parseTree (tree_object (lit "aa11") (encode_tree [entry_leading; entry_trailing]))
  = Ok (map read_entry [entry_leading; entry_trailing])
  /\ Forall (fun e =>
               ~ ws_edge (TreeEntry.Mode (read_entry e))
               /\ ~ ws_edge (TreeEntry.Name (read_entry e))
               /\ (ws_edge (RawEntry.mode e) ->
                   TreeEntry.Mode (read_entry e) <> RawEntry.mode e)
               /\ (ws_edge (RawEntry.name e) ->
                   TreeEntry.Name (read_entry e) <> RawEntry.name e))
            [entry_leading; entry_trailing].
Proof.
  apply (C10_parseTree_trims_fields [entry_leading; entry_trailing]
           (tree_object (lit "aa11")
                        (encode_tree [entry_leading; entry_trailing]))).
  - by_evaluation.
  - reflexivity.
Defined.

(** ** Header parser and object loader *)

(** C4 (as amended).  For every decompressed body that contains no space
    byte, or no zero byte after its first space, the header parser returns
    no offset at all: [getType], or [getSize] after it, slices with the -1
    of [findFirstMatch] and the call panics.  [newObject] stops with it and
    never slices the content.  There is no [MalformedHeader] value. *)
Theorem C4_malformed_header_panics (data : bytes) :
  (~ In SPACE data
   \/ exists a b, data = a ++ SPACE :: b /\ ~ In SPACE a /\ ~ In NUL b) ->
  (r <- getType data ;; getSize (snd r) data) = Panic
  /\ forall (env : Env) (object_path zlib_bytes : bytes),
       ReadFile env object_path = Some zlib_bytes ->
       inflate env zlib_bytes = Some data ->
       newObject env object_path = Panic.
Proof.
  intros [Hs | (a & b & -> & Ha & Hb)].
  - split.
    + rewrite (getType_no_space _ Hs). reflexivity.
    + intros env p z Hr Hi. unfold newObject.
      rewrite Hr, Hi, (getType_no_space _ Hs). reflexivity.
  - split.
    + rewrite (getType_space _ _ Ha). cbn [bind snd].
      apply getSize_no_nul. exact Hb.
    + intros env p z Hr Hi. unfold newObject.
      rewrite Hr, Hi, (getType_space _ _ Ha). cbn [bind].
      rewrite (getSize_no_nul _ _ Hb). reflexivity.
Qed.

Lemma C4_witness :
  (r <- getType (lit "blob 12") ;; getSize (snd r) (lit "blob 12")) = Panic
  /\ forall (env : Env) (object_path zlib_bytes : bytes),
       ReadFile env object_path = Some zlib_bytes ->
       inflate env zlib_bytes = Some (lit "blob 12") ->
       newObject env object_path = Panic.
Proof.
  apply (C4_malformed_header_panics (lit "blob 12")).
  right. exists (lit "blob"), (lit "12"). by_evaluation.
Defined.

(** C4 as stated fails.  On the header [blob12], without a space, the
    header parser hands no failure back to its caller: [getType] panics, and
    so does [newObject] over a store that inflates to these bytes. *)
Lemma C4_counterexample :
  getType (lit "blob12") = Panic
  /\ ~ returns (getType (lit "blob12"))
  /\ newObject env_no_space (lit ".git/objects/11/22") = Panic.
Proof.
  repeat split; try reflexivity. intros (r & E). discriminate E.
Qed.

(** ** Commit decoder *)

(** C5.  For every commit body that begins with the line [tree <id>] and N
    lines [parent <id>] (N >= 0), followed by a line that is at least 6
    bytes long and does not begin with [parent] (in git: the [author]
    line), [parseCommit] returns the tree identifier of the first line and
    exactly the N parent identifiers, in the order of the body; the parent
    run ends at the first line that does not begin with [parent]. *)
Theorem C5_parseCommit_valid_body (T : bytes) (ps : list bytes) (hd tl : bytes)
        (obj : Object.t) :
  object_id T -> Forall object_id ps ->
  length hd = 6%nat -> ~ In NL hd -> hd <> lit "parent" ->
  Object.Content obj = commit_header T ps ++ hd ++ tl ->
  parseCommit obj = Ok (Commit.mk T ps).
Proof.
  intros HT Hps Hl Hnl Hne HC.
  rewrite (parseCommit_header T ps (hd ++ tl) obj HT Hps HC).
  destruct (Split_nl_head hd tl Hnl) as (l & ls & E). rewrite E.
  cbn [parseCommit_loop]. unfold slice_to.
  rewrite (slice_middle [] hd l) by (rewrite ?(length_len _ _ Hl); reflexivity).
  cbn [bind]. rewrite (bytes_eqb_neq _ _ Hne). reflexivity.
Qed.

Lemma C5_witness :
  parseCommit (commit_object (lit "5566") merge_commit_body)
  = Ok (Commit.mk id_t [id_p1; id_p2]).
Proof.
  apply (C5_parseCommit_valid_body id_t [id_p1; id_p2] (lit "author")
           (skipn 6 (lit "author A U Thor <author@example.com> 1 +0000"
                     ++ [NL]
                     ++ lit "committer A U Thor <author@example.com> 1 +0000"
                     ++ [NL] ++ [NL] ++ lit "merge" ++ [NL]))
           (commit_object (lit "5566") merge_commit_body));
    by_evaluation.
Defined.

(** C6 (as amended).  [parseCommit] does not check the length of a line: it
    slices the first 6 bytes of the line at the parent check, and bytes 7 to
    47 of a line that begins with [parent], unconditionally.  For every
    commit body whose line at that position is shorter than 6 bytes, or
    begins with [parent] and is shorter than 47 bytes, the call panics; no
    [MalformedCommit] value is returned. *)
Theorem C6_short_line_panics (T : bytes) (ps : list bytes) (line rest : bytes)
        (obj : Object.t) :
  object_id T -> Forall object_id ps ->
  ~ In NL line -> (rest = [] \/ exists tl, rest = NL :: tl) ->
  (len line < 6 \/ (firstn 6 line = lit "parent" /\ len line < 47)) ->
  Object.Content obj = commit_header T ps ++ line ++ rest ->
  parseCommit obj = Panic.
Proof.
  intros HT Hps Hnl Hrest Hshort HC.
  rewrite (parseCommit_header T ps (line ++ rest) obj HT Hps HC).
  assert (E : exists ls, Go.Split_nl (line ++ rest) = line :: ls).
  { destruct Hrest as [-> | (tl & ->)].
    - rewrite app_nil_r, (Split_nl_no_NL _ Hnl). eauto.
    - rewrite (Split_nl_line _ _ Hnl). eauto. }
  destruct E as (ls & ->). cbn [parseCommit_loop]. unfold slice_to.
  destruct Hshort as [Hlt | (Hp & Hlt)].
  - rewrite slice_panic by lia. reflexivity.
  - destruct (Z_lt_ge_dec (len line) 6) as [H6 | H6].
    + rewrite slice_panic by lia. reflexivity.
    + rewrite slice_ok by lia. cbn [bind].
      change (Z.to_nat (6 - 0)) with 6%nat. cbn [Z.to_nat skipn].
      rewrite Hp, bytes_eqb_refl, slice_panic by lia. reflexivity.
Qed.

Lemma C6_witness :
  parseCommit (commit_object (lit "5566") short_line_body) = Panic.
Proof.
  apply (C6_short_line_panics id_t [] [] (NL :: lit "message" ++ [NL])
           (commit_object (lit "5566") short_line_body)).
  - by_evaluation.
  - by_evaluation.
  - by_evaluation.
  - right. eexists. reflexivity.
  - left. vm_compute. reflexivity.
  - reflexivity.
Defined.

(** C6 as stated fails.  In [short_line_body] the line after the tree line
    is empty: [parseCommit] slices its first 6 bytes and panics, where the
    claim has it return an error value. *)
Lemma C6_counterexample :
  parseCommit (commit_object (lit "5566") short_line_body) = Panic
  /\ ~ returns (parseCommit (commit_object (lit "5566") short_line_body)).
Proof. split; [reflexivity|]. intros (c & E). discriminate E. Qed.

(** ** Graph builder *)

(** C3 (as amended).  A decode failure of any single object aborts the whole
    graph-building pass: when [parseTree] or [parseCommit] panics on one of
    the loaded objects, [Repo.toJson] records no per-object error and returns
    no result; the run stops. *)
Theorem C3_decode_failure_aborts_pass (r : Repo.t) (obj : Object.t) :
  In obj (map snd (Repo.objects r)) -> Object_toJson obj = Panic ->
  aborts (Repo_toJson r).
Proof.
  intros Hin Hp. unfold Repo_toJson.
  apply (Repo_toJson_loop_aborts _ obj Hin Hp).
Qed.

Lemma C3_witness :
  aborts (Repo_toJson
            (Repo.mk (lit ".")
                     [(lit "1122", blob_object); (lit "5566", cut_commit_object)])).
Proof.
  apply (C3_decode_failure_aborts_pass
           (Repo.mk (lit ".")
                    [(lit "1122", blob_object); (lit "5566", cut_commit_object)])
           cut_commit_object).
  - right. left. reflexivity.
  - reflexivity.
Defined.

(** C3 as stated fails.  A store with a readable blob and a commit whose body
    ends inside the tree line: [Repo.toJson] panics at the commit and returns
    nothing, the node of the blob included. *)
Lemma C3_counterexample :
  Repo_toJson
    (Repo.mk (lit ".")
             [(lit "1122", blob_object); (lit "5566", cut_commit_object)])
  = Panic.
Proof. reflexivity. Qed.

(** C8.  After the objects visited so far, a commit object with tree T and
    parents P1 .. PN adds exactly the edges (self, P1), ..., (self, PN),
    (self, T), in that order, and a tree object adds one edge
    (self, entry.Hash) per entry, in entry order. *)
Theorem C8_edges_in_order (r : Repo.t) (key : bytes) (obj : Object.t)
        (g : Graph.t) :
  Repo_toJson r = Ok g ->
  (forall c, Object.Type_ obj = lit "commit" -> parseCommit obj = Ok c ->
     exists nodes,
       Repo_toJson (visited_then r key obj)
       = Ok (Graph.mk nodes
               (Graph.edges g
                  ++ map (fun p => Edge.mk (Object.Name obj) p) (Commit.Parents c)
                  ++ [Edge.mk (Object.Name obj) (Commit.Tree c)])))
  /\ (forall entries, Object.Type_ obj = lit "tree" -> parseTree obj = Ok entries ->
        exists nodes,
          Repo_toJson (visited_then r key obj)
          = Ok (Graph.mk nodes
                  (Graph.edges g
                     ++ map (fun entry => Edge.mk (Object.Name obj)
                                                  (TreeEntry.Hash entry))
                            entries))).
Proof.
  intros Hg. unfold Repo_toJson, visited_then in *. cbn [Repo.objects].
  rewrite map_app. cbn [map snd]. rewrite Repo_toJson_loop_app, Hg. cbn [bind].
  split.
  - intros c Ht Hc. rewrite (Repo_toJson_visit_commit g obj c Ht Hc).
    rewrite <- app_assoc. eauto.
  - intros entries Ht He. rewrite (Repo_toJson_visit_tree g obj entries Ht He).
    eauto.
Qed.

Lemma C8_witness :
  (exists nodes,
     Repo_toJson (visited_then (Repo.mk (lit ".") [(lit "1122", blob_object)])
                               (lit "5566")
                               (commit_object (lit "5566") merge_commit_body))
     = Ok (Graph.mk nodes
             [Edge.mk (lit "5566") id_p1; Edge.mk (lit "5566") id_p2;
              Edge.mk (lit "5566") id_t]))
  /\ (exists nodes,
        Repo_toJson (visited_then (Repo.mk (lit ".") [(lit "1122", blob_object)])
                                  (lit "aa11")
                                  (tree_object (lit "aa11")
                                     (encode_tree [entry_file; entry_dir])))
        = Ok (Graph.mk nodes
                [Edge.mk (lit "aa11") (Go.EncodeToString hash_a);
                 Edge.mk (lit "aa11") (Go.EncodeToString hash_b)])).
Proof.
  split.
  - apply (proj1 (C8_edges_in_order
                    (Repo.mk (lit ".") [(lit "1122", blob_object)]) (lit "5566")
                    (commit_object (lit "5566") merge_commit_body)
                    (Graph.mk [Node.mk (lit "1122") (lit "blob")
                                       (JsonBlob blob_object)] [])
                    eq_refl)
                 (Commit.mk id_t [id_p1; id_p2]));
      reflexivity.
  - apply (proj2 (C8_edges_in_order
                    (Repo.mk (lit ".") [(lit "1122", blob_object)]) (lit "aa11")
                    (tree_object (lit "aa11")
                                 (encode_tree [entry_file; entry_dir]))
                    (Graph.mk [Node.mk (lit "1122") (lit "blob")
                                       (JsonBlob blob_object)] [])
                    eq_refl)
                 [entry_of entry_file; entry_of entry_dir]);
      reflexivity.
Defined.

(** C9, at the failing input.  A store that holds one object of header type
    [tag]: [Object.toJson] returns zero bytes for it, [json.Unmarshal]
    rejects them and [Repo.toJson] ends in [log.Fatal]: no node is emitted
    and the builder does not succeed. *)
Theorem C9_unrecognized_type_is_fatal :
  Object_toJson tag_object = Ok JsonEmpty
  /\ Repo_toJson (Repo.mk (lit ".") [(lit "3344", tag_object)]) = Fatal
  /\ Repo_toJson (Repo.mk (lit ".")
                          [(lit "1122", blob_object); (lit "3344", tag_object)])
     = Fatal.
Proof. repeat split; reflexivity. Qed.

(** The part of C9 the code does: a blob adds its node and no edge. *)
Lemma Repo_toJson_blob_node (r : Repo.t) (key : bytes) (obj : Object.t)
      (g : Graph.t) :
  Repo_toJson r = Ok g -> Object.Type_ obj = lit "blob" ->
  Repo_toJson (visited_then r key obj)
  = Ok (Graph.mk
          (Graph.nodes g
             ++ [Node.mk (Object.Name obj) (Object.Type_ obj) (JsonBlob obj)])
          (Graph.edges g)).
Proof.
  intros Hg Ht. unfold Repo_toJson, visited_then in *. cbn [Repo.objects].
  rewrite map_app. cbn [map snd]. rewrite Repo_toJson_loop_app, Hg. cbn [bind].
  apply Repo_toJson_visit_blob. exact Ht.
Qed.

(** * Further properties of the code *)

(** ** [findFirstMatch] *)

Lemma first_occurrence (d : byte) (l : bytes) :
  In d l -> exists a b, l = a ++ d :: b /\ ~ In d a.
Proof.
  induction l as [|c l IH]; intros H; [contradiction|].
  destruct (Byte.byte_eq_dec c d) as [-> | Hne].
  - exists [], l. split; [reflexivity | intros []].
  - destruct H as [-> | H]; [congruence|].
    destruct (IH H) as (a & b & -> & Ha).
    exists (c :: a), b. split; [reflexivity|].
    intros [E | E]; [congruence | exact (Ha E)].
Qed.

Lemma first_occurrence_unique (d : byte) (a a' b b' : bytes) :
  a ++ d :: b = a' ++ d :: b' -> ~ In d a -> ~ In d a' -> a = a' /\ b = b'.
Proof.
  revert a'. induction a as [|c a IH]; intros a' E Ha Ha'.
  - destruct a' as [|x a']; [injection E as <-; auto|].
    injection E as <- _. exfalso. apply Ha'. left. reflexivity.
  - destruct a' as [|x a'].
    + injection E as -> _. exfalso. apply Ha. left. reflexivity.
    + injection E as <- E.
      destruct (IH a' E (fun H => Ha (or_intror H)) (fun H => Ha' (or_intror H)))
        as [-> ->].
      auto.
Qed.

Lemma slice_from_skipn (s : bytes) (lo : Z) :
  0 <= lo <= len s -> slice_from s lo = Ok (skipn (Z.to_nat lo) s).
Proof.
  intros H. unfold slice_from. rewrite slice_ok by lia. f_equal.
  apply firstn_all2. rewrite length_skipn. unfold len in *. lia.
Qed.

(** X1.  [findFirstMatch] keeps the promise of its comment.  For a start
    index inside the data it returns -1 when the byte does not occur from
    the start index on, and otherwise the index of its first occurrence
    there: the byte is at that index and nowhere between the start index and
    it. *)
Theorem findFirstMatch_first (match_byte : byte) (start_index : Z) (data : bytes) :
  0 <= start_index <= len data ->
  exists r, findFirstMatch match_byte start_index data = Ok r
    /\ ((r = -1 /\ ~ In match_byte (skipn (Z.to_nat start_index) data))
        \/ (start_index <= r < len data
            /\ nth_error data (Z.to_nat r) = Some match_byte
            /\ ~ In match_byte
                 (firstn (Z.to_nat (r - start_index))
                         (skipn (Z.to_nat start_index) data)))).
Proof.
  intros Hs. unfold findFirstMatch. rewrite (slice_from_skipn _ _ Hs). cbn [bind].
  eexists. split; [reflexivity|].
  set (rest := skipn (Z.to_nat start_index) data).
  assert (Hrest : len rest = len data - start_index).
  { unfold rest, len in *. rewrite length_skipn. lia. }
  destruct (in_dec Byte.byte_eq_dec match_byte rest) as [Hin | Hno].
  - right. destruct (first_occurrence _ _ Hin) as (a & b & E & Ha).
    rewrite E, (findFirstMatch_range_found _ _ _ _ _ Ha).
    pose proof (len_nonneg a). pose proof (len_nonneg b).
    rewrite E in Hrest. lens.
    replace (start_index + 0 + len a - start_index) with (len a) by lia.
    rewrite firstn_len_app. repeat split; try lia; [|exact Ha].
    replace (Z.to_nat (start_index + 0 + len a))
      with (Z.to_nat start_index + length a)%nat by (unfold len; lia).
    rewrite <- (firstn_skipn (Z.to_nat start_index) data) at 1.
    rewrite nth_error_app2 by (rewrite length_firstn; unfold len in *; lia).
    rewrite length_firstn.
    replace (Z.to_nat start_index + length a
             - Nat.min (Z.to_nat start_index) (length data))%nat
      with (length a) by (unfold len in *; lia).
    fold rest. rewrite E, nth_error_app2, Nat.sub_diag by lia. reflexivity.
  - left. rewrite (findFirstMatch_range_none _ _ _ _ Hno). auto.
Qed.

Lemma findFirstMatch_first_witness :
  exists r, findFirstMatch SPACE 2 (lit "a b c d") = Ok r
    /\ ((r = -1 /\ ~ In SPACE (skipn (Z.to_nat 2) (lit "a b c d")))
        \/ (2 <= r < len (lit "a b c d")
            /\ nth_error (lit "a b c d") (Z.to_nat r) = Some SPACE
            /\ ~ In SPACE
                 (firstn (Z.to_nat (r - 2))
                         (skipn (Z.to_nat 2) (lit "a b c d"))))).
Proof.
  apply (findFirstMatch_first SPACE 2 (lit "a b c d")). vm_compute.
  split; discriminate.
Defined.

(** ** [getType], [getSize] and [newObject] *)

Lemma header_shape (data : bytes) :
  well_formed_header data
  \/ ~ In SPACE data
  \/ exists a b, data = a ++ SPACE :: b /\ ~ In SPACE a /\ ~ In NUL b.
Proof.
  destruct (in_dec Byte.byte_eq_dec SPACE data) as [Hs | Hs]; [|auto].
  destruct (first_occurrence _ _ Hs) as (a & b & -> & Ha).
  destruct (in_dec Byte.byte_eq_dec NUL b) as [Hn | Hn].
  - left. destruct (first_occurrence _ _ Hn) as (sz & content & -> & Hsz).
    exists a, sz, content. auto.
  - right. right. exists a, b. auto.
Qed.

(** X2.  On a header with a space and, after it, a zero byte, [newObject]
    returns the object: the type is the trimmed text before the first
    space, the size the trimmed text between that space and the first zero
    byte after it, the content everything after that zero byte, the location
    the path, and the name the directory name followed by the file name. *)
Theorem newObject_fields (env : Env) (object_path zlib_bytes ty sz content : bytes) :
  ReadFile env object_path = Some zlib_bytes ->
  inflate env zlib_bytes = Some (ty ++ SPACE :: sz ++ NUL :: content) ->
  ~ In SPACE ty -> ~ In NUL sz ->
  newObject env object_path
  = Ok (Object.mk (Go.TrimSpace ty) (Go.TrimSpace sz) object_path
                  (getObjectName env object_path) content).
Proof. exact (newObject_header env object_path zlib_bytes ty sz content). Qed.

Lemma newObject_fields_witness :
  newObject env_blob (lit ".git/objects/11/22")
  = Ok (Object.mk (lit "blob") (lit "5") (lit ".git/objects/11/22")
                  (lit "1122") (lit "hello")).
Proof.
  apply (newObject_fields env_blob (lit ".git/objects/11/22") [x78]
           (lit "blob") (lit "5") (lit "hello")).
  - reflexivity.
  - reflexivity.
  - vm_compute. intuition discriminate.
  - vm_compute. intuition discriminate.
Defined.

(** X3.  Once the file is read and inflated, [newObject] returns exactly
    when the header has a space and a zero byte after it; on every other
    header it panics.  It ends in [log.Fatal] exactly when the file cannot
    be read or does not inflate. *)
Theorem newObject_outcome (env : Env) (object_path : bytes) :
  (newObject env object_path = Fatal
   <-> (ReadFile env object_path = None
        \/ exists z, ReadFile env object_path = Some z /\ inflate env z = None))
  /\ (forall z data,
        ReadFile env object_path = Some z -> inflate env z = Some data ->
        (returns (newObject env object_path) <-> well_formed_header data)
        /\ (newObject env object_path = Panic <-> ~ well_formed_header data)).
Proof.
  assert (Hcase : forall z data,
             ReadFile env object_path = Some z -> inflate env z = Some data ->
             (well_formed_header data /\ returns (newObject env object_path))
             \/ (~ well_formed_header data /\ newObject env object_path = Panic)).
  { intros z data Hr Hi.
    destruct (header_shape data) as [Hw | Hbad].
    - left. split; [exact Hw|].
      destruct Hw as (ty & sz & content & -> & Hty & Hsz).
      eexists. exact (newObject_header env _ _ _ _ _ Hr Hi Hty Hsz).
    - right. split.
      + intros (ty & sz & content & -> & Hty & Hsz).
        destruct Hbad as [Hno | (a & b & E & Ha & Hb)].
        * apply Hno. apply in_or_app. right. left. reflexivity.
        * destruct (first_occurrence_unique _ _ _ _ _ E Hty Ha) as [_ Eb].
          subst b. apply Hb. apply in_or_app. right. left.
          reflexivity.
      + unfold newObject. rewrite Hr, Hi.
        destruct Hbad as [Hno | (a & b & -> & Ha & Hb)].
        * rewrite (getType_no_space _ Hno). reflexivity.
        * rewrite (getType_space _ _ Ha). cbn [bind].
          rewrite (getSize_no_nul _ _ Hb). reflexivity. }
  split.
  - split.
    + intros HF. destruct (ReadFile env object_path) as [z|] eqn:Hr; [|auto].
      right. exists z. split; [reflexivity|].
      destruct (inflate env z) as [data|] eqn:Hi; [|reflexivity].
      destruct (Hcase z data eq_refl Hi) as [(_ & (o & E)) | (_ & E)];
        rewrite E in HF; discriminate HF.
    + intros [Hr | (z & Hr & Hi)]; unfold newObject; rewrite Hr;
        [|rewrite Hi]; reflexivity.
  - intros z data Hr Hi.
    destruct (Hcase z data Hr Hi) as [(Hw & (o & E)) | (Hn & E)].
    + split; split; intros H; try assumption.
      * exists o. exact E.
      * rewrite E in H. discriminate H.
      * contradiction.
    + split; split; intros H; try assumption.
      * destruct H as (o & Eo). rewrite E in Eo. discriminate Eo.
      * contradiction.
Qed.

(** ** [parseTree] on arbitrary bodies *)

Lemma slice_length (s : bytes) (lo hi : Z) (x : bytes) :
  slice s lo hi = Ok x -> length x = Z.to_nat (hi - lo).
Proof.
  unfold slice.
  destruct ((0 <=? lo) && (lo <=? hi) && (hi <=? len s)) eqn:E; [|discriminate].
  rewrite !andb_true_iff, !Z.leb_le in E. intros H. injection H as <-.
  rewrite length_firstn, length_skipn. unfold len in *. lia.
Qed.

Lemma hexdigits_is_hex (v : byte) :
  is_hex (Go.hexdigit (Z.shiftr (byte_val v) 4)) = true
  /\ is_hex (Go.hexdigit (Z.land (byte_val v) 0x0F)) = true.
Proof. destruct v; vm_compute; split; reflexivity. Qed.

Lemma EncodeToString_is_hex (s : bytes) :
  Forall (fun c => is_hex c = true) (Go.EncodeToString s).
Proof.
  induction s as [|v s IH]; simpl; [constructor|].
  destruct (hexdigits_is_hex v). repeat constructor; assumption.
Qed.

Lemma parseTree_loop_shape (steps : nat) :
  forall (Content : bytes) (item start stop : Z) (m n : bytes)
         (entries out : list TreeEntry.t),
  (item = 3 -> stop = start + 20) ->
  trimmed m -> trimmed n -> Forall entry_shape entries ->
  parseTree_loop steps Content item start stop m n entries = Ok out ->
  Forall entry_shape out.
Proof.
  induction steps as [|steps IH]; intros Content item start stop m n entries out
    Hi Hm Hn He; cbn [parseTree_loop];
    destruct (stop <=? len Content);
    try discriminate; try (intros E; injection E as <-; exact He).
  destruct (item =? 1) eqn:E1.
  { apply Z.eqb_eq in E1.
    destruct (slice Content start stop) as [s| | |]; cbn [bind];
      try discriminate.
    apply IH; auto; try lia; apply TrimSpace_no_ws_edge. }
  destruct (item =? 2) eqn:E2.
  { destruct (if start <? 0 then Panic else _) as [i| | |]; cbn [bind];
      try discriminate.
    destruct (slice Content start i) as [s| | |]; cbn [bind]; try discriminate.
    apply IH; auto; try lia; apply TrimSpace_no_ws_edge. }
  destruct (item =? 3) eqn:E3.
  { apply Z.eqb_eq in E3. specialize (Hi E3).
    destruct (slice Content start stop) as [s| | |] eqn:Es; cbn [bind];
      try discriminate.
    apply slice_length in Es.
    apply IH; auto; try lia. apply Forall_app. split; [exact He|].
    constructor; [|constructor]. unfold entry_shape.
    cbn [TreeEntry.Mode TreeEntry.Name TreeEntry.Hash].
    rewrite TrimSpace_EncodeToString, EncodeToString_length.
    repeat split; auto; [lia | apply EncodeToString_is_hex]. }
  apply IH; auto.
Qed.

(** X4.  Whatever bytes the body holds, every entry [parseTree] returns has
    a mode and a name without ASCII white space at either end, and a hash
    of exactly 40 lowercase hexadecimal characters. *)
Theorem parseTree_entry_shape (obj : Object.t) (entries : list TreeEntry.t) :
  parseTree obj = Ok entries -> Forall entry_shape entries.
Proof.
  unfold parseTree. apply parseTree_loop_shape;
    [discriminate | apply trimmed_nil | apply trimmed_nil | constructor].
Qed.

Lemma parseTree_entry_shape_witness :
  Forall entry_shape
         [TreeEntry.mk (lit "The qu") (lit "ick brown fox")
            (Go.EncodeToString (lit " jumps over the lazy"))].
Proof.
  apply (parseTree_entry_shape (tree_object (lit "aa11") body_text)).
  reflexivity.
Defined.

(** X5.  [parseTree] always comes to an end: on every body the loop stops
    within [3 * (len + 1)] iterations, with a list of entries or with a
    panic. *)
Theorem parseTree_always_ends (obj : Object.t) :
  parseTree obj <> Diverge
  /\ (parseTree obj = Panic \/ exists entries, parseTree obj = Ok entries).
Proof.
  split; [|apply parseTree_terminates].
  unfold parseTree, parseTree_steps. apply parseTree_loop_terminates.
  - left. reflexivity.
  - unfold len. lia.
Qed.

(** X6.  A body with exactly six bytes after its last whole entry makes
    [parseTree] panic: the six bytes are taken as a mode, and the name scan
    reads [Content[i]] at the index after the last byte before it compares
    [i] with the length. *)
Theorem parseTree_six_bytes_left_panics (es : list RawEntry.t) (t : bytes)
        (obj : Object.t) :
  Forall fixed_entry es -> length t = 6%nat ->
  Object.Content obj = encode_tree es ++ t ->
  parseTree obj = Panic.
Proof. exact (parseTree_six_bytes_left es t obj). Qed.

Lemma parseTree_six_bytes_left_panics_witness :
  parseTree (tree_object (lit "aa11") (encode_tree [entry_file] ++ lit "40000 "))
  = Panic.
Proof.
  apply (parseTree_six_bytes_left_panics [entry_file] (lit "40000 ")
           (tree_object (lit "aa11") (encode_tree [entry_file] ++ lit "40000 "))).
  - by_evaluation.
  - reflexivity.
  - reflexivity.
Defined.

(** ** [Repo.toJson] over a whole repository *)

(** X7.  When [Repo.toJson] completes, the graph has one node per object,
    carrying the object's name and type, in the order the objects were
    visited, and its edge list is the edges of the first object, then those
    of the second, and so on: parents then tree for a commit, one edge per
    entry for a tree, none for a blob. *)
Theorem Repo_toJson_nodes_and_edges (r : Repo.t) (g : Graph.t) :
  Repo_toJson r = Ok g ->
  Graph.edges g = flat_map object_edges (map snd (Repo.objects r))
  /\ map (fun n => (Node.name n, Node.type n)) (Graph.nodes g)
     = map (fun o => (Object.Name o, Object.Type_ o)) (map snd (Repo.objects r)).
Proof. exact (Repo_toJson_graph r g). Qed.

Lemma Repo_toJson_nodes_and_edges_witness :
  Graph.edges sample_graph
  = flat_map object_edges (map snd (Repo.objects sample_repo))
  /\ map (fun n => (Node.name n, Node.type n)) (Graph.nodes sample_graph)
     = map (fun o => (Object.Name o, Object.Type_ o))
           (map snd (Repo.objects sample_repo)).
Proof.
  apply (Repo_toJson_nodes_and_edges sample_repo sample_graph). reflexivity.
Defined.

Lemma returns_Ok {A : Type} (a : A) : returns (Ok a).
Proof. exists a. reflexivity. Qed.

Lemma not_returns_Panic {A : Type} : ~ returns (@Panic A).
Proof. intros (a & E). discriminate E. Qed.

Lemma not_returns_Fatal {A : Type} : ~ returns (@Fatal A).
Proof. intros (a & E). discriminate E. Qed.

Lemma bytes_eqb_false (a b : bytes) : bytes_eqb a b = false -> a <> b.
Proof. intros H E. apply bytes_eqb_eq in E. congruence. Qed.

Lemma Repo_toJson_visit_returns (g : Graph.t) (obj : Object.t) :
  returns (Repo_toJson_visit g obj) <-> presentable obj.
Proof.
  unfold Repo_toJson_visit, Object_toJson, presentable.
  destruct (bytes_eqb (Object.Type_ obj) (lit "tree")) eqn:Et.
  - apply bytes_eqb_eq in Et. rewrite Et. change (bytes_eqb _ _) with false.
    cbv iota.
    destruct (parseTree_terminates obj) as [E | (es & E)]; rewrite E;
      cbn [bind Unmarshal].
    + split; [intros H; destruct (not_returns_Panic H)|].
      intros [H | [[_ H] | [H _]]]; try discriminate H.
      destruct (not_returns_Panic H).
    + split; [|intros _; apply returns_Ok].
      intros _. right. left. split; [reflexivity | apply returns_Ok].
  - apply bytes_eqb_false in Et.
    destruct (bytes_eqb (Object.Type_ obj) (lit "commit")) eqn:Ec.
    + apply bytes_eqb_eq in Ec.
      destruct (parseCommit_cases obj) as [E | (c & E)]; rewrite E;
        cbn [bind Unmarshal].
      * split; [intros H; destruct (not_returns_Panic H)|].
        intros [H | [[H _] | [_ H]]]; try congruence.
        -- rewrite Ec in H. discriminate H.
        -- destruct (not_returns_Panic H).
      * split; [|intros _; apply returns_Ok].
        intros _. right. right. split; [exact Ec | apply returns_Ok].
    + apply bytes_eqb_false in Ec.
      destruct (bytes_eqb (Object.Type_ obj) (lit "blob")) eqn:Eb;
        cbn [bind Unmarshal].
      * apply bytes_eqb_eq in Eb.
        split; [intros _; left; exact Eb | intros _; apply returns_Ok].
      * apply bytes_eqb_false in Eb.
        split; [intros H; destruct (not_returns_Fatal H)|].
        intros [H | [[H _] | [H _]]]; congruence.
Qed.

Lemma Repo_toJson_loop_returns (objs : list Object.t) :
  forall g, returns (Repo_toJson_loop objs g) <-> Forall presentable objs.
Proof.
  induction objs as [|o objs IH]; intros g; cbn [Repo_toJson_loop].
  - split; [constructor | intros _; apply returns_Ok].
  - pose proof (Repo_toJson_visit_returns g o) as Hv.
    destruct (Repo_toJson_visit g o) as [g'| | |] eqn:Ev; cbn [bind].
    + rewrite IH. split.
      * intros H. constructor; [apply Hv, returns_Ok | exact H].
      * intros H. inversion H. assumption.
    + split; [intros H; destruct (not_returns_Panic H)|].
      intros H. inversion H as [|? ? Ho _]. apply Hv in Ho.
      destruct (not_returns_Panic Ho).
    + split; [intros H; destruct (not_returns_Fatal H)|].
      intros H. inversion H as [|? ? Ho _]. apply Hv in Ho.
      destruct (not_returns_Fatal Ho).
    + split; [intros (a & E); discriminate E|].
      intros H. inversion H as [|? ? Ho _]. apply Hv in Ho.
      destruct Ho as (a & E). discriminate E.
Qed.

(** X8.  [Repo.toJson] completes exactly when every object of the
    repository is a blob, a tree on which [parseTree] returns, or a commit
    on which [parseCommit] returns; one object of any other kind, or one
    failed decode, leaves the caller without a graph. *)
Theorem Repo_toJson_completes_iff (r : Repo.t) :
  returns (Repo_toJson r) <-> Forall presentable (map snd (Repo.objects r)).
Proof. apply Repo_toJson_loop_returns. Qed.

(** ** [Repo.toSQLite] *)

Lemma toSQLite_edges_appends (db : Sqlite.t) (src : bytes) (dests : list bytes) :
  toSQLite_edges db src dests
  = Ok (Sqlite.mk (Sqlite.objects db)
                  (Sqlite.edges db ++ map (fun p => Edge.mk src p) dests)).
Proof.
  revert db. induction dests as [|p dests IH]; intros db; cbn [toSQLite_edges map].
  - rewrite app_nil_r. destruct db; reflexivity.
  - unfold edges_stmt_Exec. cbn [bind]. rewrite IH.
    cbn [Sqlite.objects Sqlite.edges]. rewrite <- app_assoc. reflexivity.
Qed.

Lemma Object_toJson_returns (obj : Object.t) :
  returns (Object_toJson obj) <-> decodable obj.
Proof.
  unfold Object_toJson, decodable.
  destruct (bytes_eqb (Object.Type_ obj) (lit "tree")) eqn:Et.
  - apply bytes_eqb_eq in Et. rewrite Et.
    destruct (parseTree obj) as [es| | |]; cbn [bind].
    + split; [|intros _; apply returns_Ok].
      intros _. split; [intros _; apply returns_Ok | discriminate].
    + split; [intros (a & E); discriminate E|]. intros [H _]. destruct (H eq_refl) as (a & E). discriminate E.
    + split; [intros (a & E); discriminate E|]. intros [H _]. destruct (H eq_refl) as (a & E). discriminate E.
    + split; [intros (a & E); discriminate E|]. intros [H _]. destruct (H eq_refl) as (a & E). discriminate E.
  - apply bytes_eqb_false in Et.
    destruct (bytes_eqb (Object.Type_ obj) (lit "commit")) eqn:Ec.
    + apply bytes_eqb_eq in Ec.
      destruct (parseCommit obj) as [c| | |]; cbn [bind].
      * split; [|intros _; apply returns_Ok].
        intros _. split; [congruence | intros _; apply returns_Ok].
      * split; [intros (a & E); discriminate E|]. intros [_ H]. destruct (H Ec) as (a & E). discriminate E.
      * split; [intros (a & E); discriminate E|]. intros [_ H]. destruct (H Ec) as (a & E). discriminate E.
      * split; [intros (a & E); discriminate E|]. intros [_ H]. destruct (H Ec) as (a & E). discriminate E.
    + apply bytes_eqb_false in Ec.
      assert (R : returns (if bytes_eqb (Object.Type_ obj) (lit "blob")
                           then Ok (JsonBlob obj) else Ok JsonEmpty))
        by (destruct (bytes_eqb _ _); apply returns_Ok).
      split; [|intros _; exact R]. intros _. split; congruence.
Qed.

(** What one visit writes: a row for the object under its key, then the
    rows of its edges. *)
Lemma toSQLite_visit_rows (db : Sqlite.t) (name : bytes) (obj : Object.t)
      (data : Json) :
  Object_toJson obj = Ok data ->
  existsb (fun row => bytes_eqb (fst (fst row)) name) (Sqlite.objects db) = false ->
  toSQLite_visit db name obj
  = Ok (Sqlite.mk (Sqlite.objects db ++ [(name, Object.Type_ obj, data)])
                  (Sqlite.edges db ++ object_edges obj)).
Proof.
  intros Hd Hk. unfold toSQLite_visit, objs_stmt_Exec, object_edges.
  rewrite Hd. cbn [bind]. rewrite Hk. cbn [bind].
  unfold Object_toJson in Hd.
  destruct (bytes_eqb (Object.Type_ obj) (lit "tree")) eqn:Et.
  - apply bytes_eqb_eq in Et. rewrite Et in *. change (bytes_eqb _ _) with false.
    cbv iota. destruct (parseTree obj) as [es| | |]; try discriminate Hd.
    cbn [bind]. rewrite toSQLite_edges_appends, map_map. reflexivity.
  - destruct (bytes_eqb (Object.Type_ obj) (lit "commit")) eqn:Ec.
    + destruct (parseCommit obj) as [c| | |]; try discriminate Hd.
      cbn [bind]. rewrite toSQLite_edges_appends. cbn [bind].
      unfold edges_stmt_Exec. cbn [Sqlite.objects Sqlite.edges].
      rewrite <- app_assoc. reflexivity.
    + rewrite app_nil_r. reflexivity.
Qed.

Lemma existsb_key_false (name : bytes) (rows : list (bytes * bytes * Json)) :
  ~ In name (map (fun row => fst (fst row)) rows) ->
  existsb (fun row => bytes_eqb (fst (fst row)) name) rows = false.
Proof.
  induction rows as [|row rows IH]; intros H; [reflexivity|].
  cbn [existsb]. rewrite bytes_eqb_neq, IH; [reflexivity | |].
  - intros Hin. apply H. right. exact Hin.
  - intros E. apply H. left. exact E.
Qed.

Lemma toSQLite_loop_rows (objs : list (bytes * Object.t)) :
  forall db,
  NoDup (map (fun row => fst (fst row)) (Sqlite.objects db) ++ map fst objs) ->
  Forall decodable (map snd objs) ->
  exists db',
    toSQLite_loop objs db = Ok db'
    /\ map (fun row => (fst (fst row), snd (fst row))) (Sqlite.objects db')
       = map (fun row => (fst (fst row), snd (fst row))) (Sqlite.objects db)
           ++ map (fun ko => (fst ko, Object.Type_ (snd ko))) objs
    /\ Sqlite.edges db'
       = Sqlite.edges db ++ flat_map object_edges (map snd objs).
Proof.
  induction objs as [|[k o] objs IH]; intros db Hnd Hdec.
  - exists db. cbn. rewrite !app_nil_r. auto.
  - cbn [map fst snd] in *. inversion Hdec as [|? ? Ho Hrest]; subst.
    apply Object_toJson_returns in Ho. destruct Ho as (data & Hd).
    assert (Hk : ~ In k (map (fun row => fst (fst row)) (Sqlite.objects db))).
    { intros Hin. apply NoDup_remove_2 in Hnd. apply Hnd.
      apply in_or_app. left. exact Hin. }
    cbn [toSQLite_loop].
    rewrite (toSQLite_visit_rows db k o data Hd (existsb_key_false _ _ Hk)).
    cbn [bind].
    destruct (IH (Sqlite.mk (Sqlite.objects db ++ [(k, Object.Type_ o, data)])
                            (Sqlite.edges db ++ object_edges o)))
      as (db' & E & Hrows & Hedges).
    + cbn [Sqlite.objects]. rewrite map_app. cbn [map fst].
      rewrite <- app_assoc. cbn [app].
      apply NoDup_app_remove_l with (l := []). cbn [app].
      replace (map (fun row => fst (fst row)) (Sqlite.objects db)
                 ++ k :: map fst objs)
        with (map (fun row => fst (fst row)) (Sqlite.objects db)
                ++ [k] ++ map fst objs) by reflexivity.
      exact Hnd.
    + exact Hrest.
    + exists db'. split; [exact E|]. split.
      * rewrite Hrows. cbn [Sqlite.objects]. rewrite map_app. cbn [map fst snd].
        rewrite <- app_assoc. reflexivity.
      * rewrite Hedges. cbn [Sqlite.edges flat_map]. rewrite <- app_assoc.
        reflexivity.
Qed.

Lemma toSQLite_loop_decodable (objs : list (bytes * Object.t)) :
  forall db, returns (toSQLite_loop objs db) -> Forall decodable (map snd objs).
Proof.
  induction objs as [|[k o] objs IH]; intros db H; [constructor|].
  cbn [toSQLite_loop map snd] in *.
  destruct (toSQLite_visit db k o) as [db'| | |] eqn:Ev; cbn [bind] in H;
    try (destruct H as (a & E); discriminate E).
  constructor; [|exact (IH db' H)].
  apply Object_toJson_returns. unfold toSQLite_visit in Ev.
  destruct (Object_toJson o) as [data| | |]; try discriminate Ev.
  apply returns_Ok.
Qed.

Lemma toSQLite_edges_objects (db db' : Sqlite.t) (src : bytes)
      (dests : list bytes) :
  toSQLite_edges db src dests = Ok db' -> Sqlite.objects db' = Sqlite.objects db.
Proof.
  rewrite toSQLite_edges_appends. intros E. injection E as <-. reflexivity.
Qed.

(** The row one visit adds to the [objects] table: the key, the type and the
    document of [Object.toJson]. *)
Lemma toSQLite_visit_objects (db db' : Sqlite.t) (name : bytes) (obj : Object.t) :
  toSQLite_visit db name obj = Ok db' ->
  Sqlite.objects db'
  = Sqlite.objects db ++ [(name, Object.Type_ obj, document_of obj)].
Proof.
  unfold toSQLite_visit, document_of, objs_stmt_Exec.
  destruct (Object_toJson obj) as [data| | |]; cbn [bind]; try discriminate.
  destruct (existsb _ (Sqlite.objects db)); cbn [bind]; try discriminate.
  set (db1 := Sqlite.mk (Sqlite.objects db ++ [(name, Object.Type_ obj, data)])
                        (Sqlite.edges db)).
  destruct (bytes_eqb (Object.Type_ obj) (lit "commit")).
  - destruct (parseCommit obj) as [c| | |]; cbn [bind]; try discriminate.
    rewrite toSQLite_edges_appends. cbn [bind]. unfold edges_stmt_Exec.
    intros E. injection E as <-. reflexivity.
  - destruct (bytes_eqb (Object.Type_ obj) (lit "tree")).
    + destruct (parseTree obj) as [es| | |]; cbn [bind]; try discriminate.
      intros E. apply toSQLite_edges_objects in E. exact E.
    + intros E. injection E as <-. reflexivity.
Qed.

Lemma toSQLite_loop_objects (objs : list (bytes * Object.t)) :
  forall db db',
  toSQLite_loop objs db = Ok db' ->
  Sqlite.objects db'
  = Sqlite.objects db
      ++ map (fun ko => (fst ko, Object.Type_ (snd ko), document_of (snd ko)))
             objs.
Proof.
  induction objs as [|[k o] objs IH]; intros db db'; cbn [toSQLite_loop map].
  - intros E. injection E as <-. rewrite app_nil_r. reflexivity.
  - destruct (toSQLite_visit db k o) as [db1| | |] eqn:Ev; cbn [bind];
      try discriminate.
    intros E. rewrite (IH _ _ E), (toSQLite_visit_objects _ _ _ _ Ev).
    rewrite <- app_assoc. reflexivity.
Qed.

Lemma document_of_unrecognized (obj : Object.t) :
  Object.Type_ obj <> lit "tree" -> Object.Type_ obj <> lit "commit" ->
  Object.Type_ obj <> lit "blob" ->
  document_of obj = JsonEmpty.
Proof.
  intros H1 H2 H3. unfold document_of, Object_toJson.
  rewrite (bytes_eqb_neq _ _ H1), (bytes_eqb_neq _ _ H2), (bytes_eqb_neq _ _ H3).
  reflexivity.
Qed.

(** X9.  Over a repository with one object per key, [Repo.toSQLite]
    completes exactly when every tree and every commit decodes.  The type of
    an object is no condition: when the export completes, the [objects]
    table holds one row per object, in visiting order, with the key, the
    type and the document of [Object.toJson], and an object that is neither
    blob, tree nor commit has its row, with the empty document. *)
Theorem Repo_toSQLite_completes_iff (r : Repo.t) :
  NoDup (map fst (Repo.objects r)) ->
  (returns (Repo_toSQLite r) <-> Forall decodable (map snd (Repo.objects r)))
  /\ (forall db, Repo_toSQLite r = Ok db ->
        Sqlite.objects db
        = map (fun ko => (fst ko, Object.Type_ (snd ko), document_of (snd ko)))
              (Repo.objects r)
        /\ forall key obj,
             In (key, obj) (Repo.objects r) ->
             Object.Type_ obj <> lit "tree" ->
             Object.Type_ obj <> lit "commit" ->
             Object.Type_ obj <> lit "blob" ->
             In (key, Object.Type_ obj, JsonEmpty) (Sqlite.objects db)).
Proof.
  intros Hnd. unfold Repo_toSQLite. split.
  - split.
    + apply toSQLite_loop_decodable.
    + intros Hd.
      destruct (toSQLite_loop_rows (Repo.objects r) (Sqlite.mk [] []) Hnd Hd)
        as (db & E & _).
      exists db. exact E.
  - intros db E. apply toSQLite_loop_objects in E. cbn [Sqlite.objects app] in E.
    split; [exact E|].
    intros key obj Hin H1 H2 H3. rewrite E.
    rewrite <- (document_of_unrecognized obj H1 H2 H3).
    apply (in_map (fun ko => (fst ko, Object.Type_ (snd ko),
                              document_of (snd ko)))
                  (Repo.objects r) (key, obj) Hin).
Qed.

(** A repository with a blob and an annotated tag: the export completes and
    the tag has its row. *)
Lemma Repo_toSQLite_completes_iff_witness :
  (returns (Repo_toSQLite (Repo.mk (lit ".")
                             [(lit "1122", blob_object); (lit "3344", tag_object)]))
   /\ Forall decodable [blob_object; tag_object])
  /\ Repo_toSQLite (Repo.mk (lit ".")
                            [(lit "1122", blob_object); (lit "3344", tag_object)])
     = Ok (Sqlite.mk [(lit "1122", lit "blob", JsonBlob blob_object);
                      (lit "3344", lit "tag", JsonEmpty)] [])
  /\ In (lit "3344", lit "tag", JsonEmpty)
        [(lit "1122", lit "blob", JsonBlob blob_object);
         (lit "3344", lit "tag", JsonEmpty)].
Proof.
  destruct (Repo_toSQLite_completes_iff
              (Repo.mk (lit ".")
                       [(lit "1122", blob_object); (lit "3344", tag_object)]))
    as (Hiff & Hrows).
  - repeat constructor; vm_compute; intuition discriminate.
  - assert (Hd : Forall decodable [blob_object; tag_object])
      by (repeat constructor; intros E; vm_compute in E; discriminate E).
    split; [split; [apply Hiff; exact Hd | exact Hd]|].
    split; [reflexivity|].
    destruct (Hrows (Sqlite.mk [(lit "1122", lit "blob", JsonBlob blob_object);
                                (lit "3344", lit "tag", JsonEmpty)] [])
                    eq_refl) as (_ & Htag).
    apply (Htag (lit "3344") tag_object).
    + right. left. reflexivity.
    + vm_compute. discriminate.
    + vm_compute. discriminate.
    + vm_compute. discriminate.
Defined.

Lemma presentable_decodable (obj : Object.t) : presentable obj -> decodable obj.
Proof.
  intros [Hb | [[Ht H] | [Hc H]]]; split; intros E; rewrite E in *;
    try discriminate; assumption.
Qed.

(** X10.  Over a repository with one object per key on which [Repo.toJson]
    completes, [Repo.toSQLite] completes too; the rows of its [edges] table
    are the edges of the JSON graph, in the same order, and its [objects]
    table has one row per object, under the object's key and type. *)
Theorem Repo_toSQLite_agrees_with_toJson (r : Repo.t) (g : Graph.t) :
  NoDup (map fst (Repo.objects r)) -> Repo_toJson r = Ok g ->
  exists db,
    Repo_toSQLite r = Ok db
    /\ Sqlite.edges db = Graph.edges g
    /\ map (fun row => (fst (fst row), snd (fst row))) (Sqlite.objects db)
       = map (fun ko => (fst ko, Object.Type_ (snd ko))) (Repo.objects r).
Proof.
  intros Hnd Hg.
  assert (Hd : Forall decodable (map snd (Repo.objects r))).
  { assert (Hp : returns (Repo_toJson r)) by (exists g; exact Hg).
    apply Repo_toJson_loop_returns in Hp.
    eapply Forall_impl; [|exact Hp]. exact presentable_decodable. }
  destruct (toSQLite_loop_rows (Repo.objects r) (Sqlite.mk [] []) Hnd Hd)
    as (db & E & Hrows & Hedges).
  exists db. split; [exact E|]. split; [|exact Hrows].
  rewrite Hedges. destruct (Repo_toJson_graph r g Hg) as [He _].
  rewrite He. reflexivity.
Qed.

Lemma Repo_toSQLite_agrees_with_toJson_witness :
  exists db,
    Repo_toSQLite sample_repo = Ok db
    /\ Sqlite.edges db = Graph.edges sample_graph
    /\ map (fun row => (fst (fst row), snd (fst row))) (Sqlite.objects db)
       = map (fun ko => (fst ko, Object.Type_ (snd ko))) (Repo.objects sample_repo).
Proof.
  apply (Repo_toSQLite_agrees_with_toJson sample_repo sample_graph).
  - repeat constructor; vm_compute; intuition discriminate.
  - reflexivity.
Defined.

(** ** [getObjects], [newRepo] and [Repo.getObject] *)

Lemma map_lookup_insert_same (k : bytes) (v : Object.t)
      (m : list (bytes * Object.t)) :
  map_lookup k (map_insert k v m) = Some v.
Proof.
  induction m as [|[k' v'] m IH]; cbn [map_insert map_lookup].
  - rewrite bytes_eqb_refl. reflexivity.
  - destruct (bytes_eqb k' k) eqn:E; cbn [map_lookup].
    + rewrite bytes_eqb_refl. reflexivity.
    + rewrite E. exact IH.
Qed.

Lemma map_lookup_insert_other (k k' : bytes) (v : Object.t)
      (m : list (bytes * Object.t)) :
  k' <> k -> map_lookup k' (map_insert k v m) = map_lookup k' m.
Proof.
  intros Hne. induction m as [|[k0 v0] m IH]; cbn [map_insert map_lookup].
  - rewrite (bytes_eqb_neq k k') by congruence. reflexivity.
  - destruct (bytes_eqb k0 k) eqn:E; cbn [map_lookup].
    + apply bytes_eqb_eq in E. subst k0.
      rewrite (bytes_eqb_neq k k') by congruence. reflexivity.
    + rewrite IH. reflexivity.
Qed.

Lemma map_insert_In (k : bytes) (v : Object.t) (m : list (bytes * Object.t))
      (kv : bytes * Object.t) :
  In kv (map_insert k v m) -> kv = (k, v) \/ In kv m.
Proof.
  induction m as [|[k0 v0] m IH]; cbn [map_insert].
  - intros [<- | []]. auto.
  - destruct (bytes_eqb k0 k).
    + intros [<- | H]; [auto | right; right; exact H].
    + intros [<- | H]; [right; left; reflexivity|].
      destruct (IH H); [auto | right; right; assumption].
Qed.

Lemma map_insert_keys_In (k : bytes) (v : Object.t) (m : list (bytes * Object.t))
      (x : bytes) :
  In x (map fst (map_insert k v m)) -> x = k \/ In x (map fst m).
Proof.
  intros H. apply in_map_iff in H. destruct H as ([k0 v0] & <- & H).
  apply map_insert_In in H. destruct H as [E | H].
  - injection E as -> _. auto.
  - right. apply in_map_iff. exists (k0, v0). auto.
Qed.

Lemma map_insert_NoDup (k : bytes) (v : Object.t) (m : list (bytes * Object.t)) :
  NoDup (map fst m) -> NoDup (map fst (map_insert k v m)).
Proof.
  induction m as [|[k0 v0] m IH]; cbn [map_insert map fst]; intros H.
  - constructor; [intros [] | constructor].
  - inversion H as [|? ? Hk Hm]; subst.
    destruct (bytes_eqb k0 k) eqn:E; cbn [map fst].
    + apply bytes_eqb_eq in E. subst k0. constructor; assumption.
    + apply bytes_eqb_false in E. constructor; [|exact (IH Hm)].
      intros Hin. apply map_insert_keys_In in Hin.
      destruct Hin as [-> | Hin]; [congruence | exact (Hk Hin)].
Qed.

Lemma newObject_name (env : Env) (object_path : bytes) (o : Object.t) :
  newObject env object_path = Ok o ->
  Object.Name o = getObjectName env object_path
  /\ Object.Location o = object_path.
Proof.
  unfold newObject, getObjectName.
  destruct (ReadFile env object_path) as [z|]; [|discriminate].
  destruct (inflate env z) as [data|]; [|discriminate].
  destruct (getType data) as [[ty i]| | |]; cbn [bind]; try discriminate.
  destruct (getSize i data) as [[sz j]| | |]; cbn [bind]; try discriminate.
  destruct (slice_from data j) as [content| | |]; cbn [bind]; try discriminate.
  intros E. injection E as <-. auto.
Qed.

(** The walk as a whole is the walk of its error-free beginning followed by
    the walk of the rest. *)
Lemma getObjects_walk_app (env : Env) (pre rest : list Visit.t) :
  Forall (fun d => Visit.err d = false) pre ->
  forall m0,
  getObjects_walk env (pre ++ rest) m0
  = (m <- getObjects_walk env pre m0 ;; getObjects_walk env rest m).
Proof.
  induction 1 as [|d pre Hd _ IH]; intros m0; [reflexivity|].
  cbn [app getObjects_walk]. rewrite Hd.
  destruct (negb (Visit.IsDir d) && is_hex_name (Base env (Visit.path d))).
  - destruct (newObject env (Visit.path d)); cbn [bind]; auto.
  - apply IH.
Qed.

Lemma getObjects_walk_inv (env : Env) (all : list Visit.t) (visits : list Visit.t) :
  incl visits all ->
  forall m0 m,
  getObjects_walk env visits m0 = Ok m ->
  NoDup (map fst m0) ->
  Forall (fun ko => fst ko = Object.Name (snd ko)
                    /\ exists d, In d all /\ loads env d = true
                                 /\ newObject env (Visit.path d) = Ok (snd ko)) m0 ->
  NoDup (map fst m)
  /\ Forall (fun ko => fst ko = Object.Name (snd ko)
                       /\ exists d, In d all /\ loads env d = true
                                    /\ newObject env (Visit.path d) = Ok (snd ko)) m.
Proof.
  induction visits as [|d visits IH]; intros Hincl m0 m; cbn [getObjects_walk].
  - intros E. injection E as <-. auto.
  - assert (Hd : In d all) by (apply Hincl; left; reflexivity).
    assert (Hrest : incl visits all)
      by (intros x Hx; apply Hincl; right; exact Hx).
    destruct (Visit.err d) eqn:Ee; [intros E; injection E as <-; auto|].
    destruct (negb (Visit.IsDir d) && is_hex_name (Base env (Visit.path d)))
      eqn:El; [|apply IH; exact Hrest].
    destruct (newObject env (Visit.path d)) as [o| | |] eqn:Eo; cbn [bind];
      try discriminate.
    intros E Hnd HP. apply (IH Hrest _ _ E).
    + apply map_insert_NoDup. exact Hnd.
    + apply Forall_forall. intros kv Hin. apply map_insert_In in Hin.
      destruct Hin as [-> | Hin].
      * cbn [fst snd]. split; [reflexivity|]. exists d.
        unfold loads. rewrite Ee. cbn [negb andb]. auto.
      * rewrite Forall_forall in HP. exact (HP kv Hin).
Qed.

(** X11.  The map [getObjects] returns has one binding per key, and every
    binding is an object that [newObject] loaded from a file of the walk, not
    a directory, named in hexadecimal digits, stored under the object's own
    name. *)
Theorem getObjects_bindings (env : Env) (WalkDir : bytes -> list Visit.t)
        (objects_dir : bytes) (objects : list (bytes * Object.t)) :
  getObjects env WalkDir objects_dir = Ok objects ->
  NoDup (map fst objects)
  /\ Forall (fun ko => fst ko = Object.Name (snd ko)
                       /\ exists d, In d (WalkDir objects_dir)
                                    /\ loads env d = true
                                    /\ newObject env (Visit.path d) = Ok (snd ko))
            objects.
Proof.
  intros E. unfold getObjects in E.
  apply (getObjects_walk_inv env (WalkDir objects_dir) (WalkDir objects_dir)
           (incl_refl _) [] objects E); constructor.
Qed.

Lemma getObjects_walk_keeps (env : Env) (k : bytes) (o : Object.t)
      (visits : list Visit.t) :
  Forall (fun d => loads env d = true ->
                   getObjectName env (Visit.path d) <> k) visits ->
  forall m0 m,
  getObjects_walk env visits m0 = Ok m ->
  map_lookup k m0 = Some o -> map_lookup k m = Some o.
Proof.
  induction 1 as [|d visits Hd _ IH]; intros m0 m; cbn [getObjects_walk].
  - intros E. injection E as <-. auto.
  - unfold loads in Hd.
    destruct (Visit.err d); [intros E; injection E as <-; auto|].
    cbn [negb andb] in Hd.
    destruct (negb (Visit.IsDir d) && is_hex_name (Base env (Visit.path d)));
      [|apply IH].
    destruct (newObject env (Visit.path d)) as [o'| | |] eqn:Eo; cbn [bind];
      try discriminate.
    intros E Hl. apply (IH _ _ E).
    destruct (newObject_name _ _ _ Eo) as [En _].
    rewrite map_lookup_insert_other; [exact Hl|].
    rewrite En. intros Ek. exact (Hd eq_refl (eq_sym Ek)).
Qed.

(** X12.  After [newRepo], [getObject] finds every object file of the walk
    under its name, the directory name followed by the file name: a file
    that the walk reaches before any error, that is no directory and is
    named in hexadecimal digits, provided no later such file has the same
    name.  The object found is the one [newObject] made of that file. *)
Theorem newRepo_getObject (env : Env) (WalkDir : bytes -> list Visit.t)
        (location : bytes) (r : Repo.t) (pre post : list Visit.t) (d : Visit.t) :
  newRepo env WalkDir location = Ok r ->
  WalkDir (location ++ OBJS_DIR) = pre ++ d :: post ->
  Forall (fun d' => Visit.err d' = false) pre ->
  loads env d = true ->
  Forall (fun d' => loads env d' = true ->
                    getObjectName env (Visit.path d')
                    <> getObjectName env (Visit.path d)) post ->
  exists o, newObject env (Visit.path d) = Ok o
            /\ Repo_getObject r (getObjectName env (Visit.path d)) = Some o.
Proof.
  intros Hr HW Hpre Hd Hpost. unfold newRepo, getObjects in Hr. rewrite HW in Hr.
  rewrite (getObjects_walk_app env pre (d :: post) Hpre) in Hr.
  destruct (getObjects_walk env pre []) as [m1| | |]; cbn [bind] in Hr;
    try discriminate Hr.
  cbn [getObjects_walk] in Hr. unfold loads in Hd.
  destruct (Visit.err d); [discriminate Hd|]. cbn [negb andb] in Hd.
  rewrite Hd in Hr.
  destruct (newObject env (Visit.path d)) as [o| | |] eqn:Eo; cbn [bind] in Hr;
    try discriminate Hr.
  exists o. split; [reflexivity|].
  destruct (getObjects_walk env post (map_insert (Object.Name o) o m1))
    as [m| | |] eqn:Ew; cbn [bind] in Hr; try discriminate Hr.
  injection Hr as <-. unfold Repo_getObject. cbn [Repo.objects].
  apply (getObjects_walk_keeps env _ o post Hpost _ _ Ew).
  destruct (newObject_name _ _ _ Eo) as [<- _]. apply map_lookup_insert_same.
Qed.

Lemma newRepo_getObject_witness :
  exists o, newObject sample_env (lit "./.git/objects/11/22") = Ok o
            /\ Repo_getObject sample_loaded
                 (getObjectName sample_env (lit "./.git/objects/11/22")) = Some o.
Proof.
  apply (newRepo_getObject sample_env sample_walk (lit ".") sample_loaded
           [Visit.mk (lit "./.git/objects") true false;
            Visit.mk (lit "./.git/objects/11") true false]
           [Visit.mk (lit "./.git/objects/55") true false;
            Visit.mk (lit "./.git/objects/55/66") false false;
            Visit.mk (lit "./.git/objects/info") true false;
            Visit.mk (lit "./.git/objects/info/packs") false false]
           (Visit.mk (lit "./.git/objects/11/22") false false)).
  - reflexivity.
  - reflexivity.
  - repeat constructor.
  - reflexivity.
  - repeat constructor; vm_compute; intros; discriminate.
Defined.

(** X13.  An error the walk reports ends the loading without a trace:
    [getObjects] returns, as if they were the whole store, the objects
    loaded before the error, and what the walk would have visited after it
    is never read. *)
Theorem getObjects_walk_error (env : Env) (WalkDir : bytes -> list Visit.t)
        (objects_dir : bytes) (pre post : list Visit.t) (d : Visit.t) :
  WalkDir objects_dir = pre ++ d :: post -> Visit.err d = true ->
  getObjects env WalkDir objects_dir = getObjects env (fun _ => pre) objects_dir.
Proof.
  intros HW He. unfold getObjects. rewrite HW. clear HW.
  generalize (@nil (bytes * Object.t)).
  induction pre as [|d' pre IH]; intros m0; cbn [app getObjects_walk].
  - rewrite He. reflexivity.
  - destruct (Visit.err d'); [reflexivity|].
    destruct (negb (Visit.IsDir d') && is_hex_name (Base env (Visit.path d')));
      [|apply IH].
    destruct (newObject env (Visit.path d')); cbn [bind];
      try reflexivity; apply IH.
Qed.

Lemma getObjects_walk_error_witness :
  getObjects sample_env
    (fun _ => [Visit.mk (lit "./.git/objects/11/22") false false;
               Visit.mk (lit "./.git/objects/55") true true;
               Visit.mk (lit "./.git/objects/55/66") false false])
    (lit "./.git/objects")
  = getObjects sample_env
      (fun _ => [Visit.mk (lit "./.git/objects/11/22") false false])
      (lit "./.git/objects").
Proof.
  apply (getObjects_walk_error sample_env _ (lit "./.git/objects")
           [Visit.mk (lit "./.git/objects/11/22") false false]
           [Visit.mk (lit "./.git/objects/55/66") false false]
           (Visit.mk (lit "./.git/objects/55") true true)).
  - reflexivity.
  - reflexivity.
Defined.

(** X14.  [getObjects] leaves directories and files whose name is not made
    of hexadecimal digits alone: it does not open them, and the map is the
    one it returns for the walk without them. *)
Theorem getObjects_skips (env : Env) (WalkDir : bytes -> list Visit.t)
        (objects_dir : bytes) (pre post : list Visit.t) (d : Visit.t) :
  WalkDir objects_dir = pre ++ d :: post -> Visit.err d = false ->
  Visit.IsDir d = true \/ is_hex_name (Base env (Visit.path d)) = false ->
  getObjects env WalkDir objects_dir
  = getObjects env (fun _ => pre ++ post) objects_dir.
Proof.
  intros HW He Hskip. unfold getObjects. rewrite HW. clear HW.
  generalize (@nil (bytes * Object.t)).
  induction pre as [|d' pre IH]; intros m0; cbn [app getObjects_walk].
  - rewrite He.
    replace (negb (Visit.IsDir d) && is_hex_name (Base env (Visit.path d)))
      with false; [reflexivity|].
    destruct Hskip as [-> | ->]; [reflexivity|].
    symmetry. apply andb_false_r.
  - destruct (Visit.err d'); [reflexivity|].
    destruct (negb (Visit.IsDir d') && is_hex_name (Base env (Visit.path d')));
      [|apply IH].
    destruct (newObject env (Visit.path d')); cbn [bind];
      try reflexivity; apply IH.
Qed.

Lemma getObjects_skips_witness :
  getObjects sample_env
    (fun _ => [Visit.mk (lit "./.git/objects/11/22") false false;
               Visit.mk (lit "./.git/objects/info/packs") false false;
               Visit.mk (lit "./.git/objects/55/66") false false])
    (lit "./.git/objects")
  = getObjects sample_env
      (fun _ => [Visit.mk (lit "./.git/objects/11/22") false false]
                  ++ [Visit.mk (lit "./.git/objects/55/66") false false])
      (lit "./.git/objects").
Proof.
  apply (getObjects_skips sample_env _ (lit "./.git/objects")
           [Visit.mk (lit "./.git/objects/11/22") false false]
           [Visit.mk (lit "./.git/objects/55/66") false false]
           (Visit.mk (lit "./.git/objects/info/packs") false false)).
  - reflexivity.
  - reflexivity.
  - right. reflexivity.
Defined.





Lemma getObjects_bindings_witness :
  NoDup (map fst (Repo.objects sample_loaded))
  /\ Forall (fun ko => fst ko = Object.Name (snd ko)
                       /\ exists d, In d (sample_walk (lit "./.git/objects"))
                                    /\ loads sample_env d = true
                                    /\ newObject sample_env (Visit.path d)
                                       = Ok (snd ko))
            (Repo.objects sample_loaded).
Proof.
  apply (getObjects_bindings sample_env sample_walk (lit "./.git/objects")
           (Repo.objects sample_loaded)).
  reflexivity.
Defined.

(** ** [Repo.head] and [Repo.currentCommit] *)

Lemma Split_nonempty (sep : byte) (s : bytes) :
  exists l ls, Split sep s = l :: ls.
Proof.
  induction s as [|c s (l & ls & IH)]; cbn [Split]; [eauto|].
  destruct (Byte.eqb c sep); [eauto|]. rewrite IH. eauto.
Qed.

Lemma Split_found (sep : byte) (a b : bytes) :
  ~ In sep a -> Split sep (a ++ sep :: b) = a :: Split sep b.
Proof.
  intros H. induction a as [|c a IH]; cbn [app Split].
  - rewrite (Byte.byte_dec_lb (eq_refl sep)). reflexivity.
  - assert (Hc : Byte.eqb c sep = false).
    { destruct (Byte.eqb c sep) eqn:E; [|reflexivity].
      apply Byte.byte_dec_bl in E. subst c. exfalso. apply H. left. reflexivity. }
    rewrite Hc, IH; [reflexivity|]. intros Hin. apply H. right. exact Hin.
Qed.

Lemma Split_none (sep : byte) (a : bytes) : ~ In sep a -> Split sep a = [a].
Proof.
  intros H. induction a as [|c a IH]; cbn [Split]; [reflexivity|].
  assert (Hc : Byte.eqb c sep = false).
  { destruct (Byte.eqb c sep) eqn:E; [|reflexivity].
    apply Byte.byte_dec_bl in E. subst c. exfalso. apply H. left. reflexivity. }
  rewrite Hc, IH; [reflexivity|]. intros Hin. apply H. right. exact Hin.
Qed.

(** [strings.Split(s, "\n")] of the decoders is [Split] at the newline. *)
Lemma Split_nl_Split (s : bytes) : Go.Split_nl s = Split NL s.
Proof.
  induction s as [|c s IH]; cbn [Go.Split_nl Split]; [reflexivity|].
  rewrite IH. reflexivity.
Qed.

(** X16.  [Repo.head] returns the text between the first colon of the HEAD
    file and the second colon, or the end of the file, with the white space
    around it removed. *)
Theorem Repo_head_after_colon (env : Env) (r : Repo.t) (a b rest : bytes) :
  ReadFile env (Repo.location r ++ HEAD_LOC) = Some (a ++ COLON :: b ++ rest) ->
  ~ In COLON a -> ~ In COLON b ->
  rest = [] \/ (exists t, rest = COLON :: t) ->
  Repo_head env r = Ok (Go.TrimSpace b).
Proof.
  intros Hr Ha Hb Hrest. unfold Repo_head. rewrite Hr.
  rewrite (Split_found COLON a (b ++ rest) Ha).
  destruct Hrest as [-> | (t & ->)].
  - rewrite app_nil_r, (Split_none COLON b Hb). reflexivity.
  - rewrite (Split_found COLON b t Hb). reflexivity.
Qed.

Lemma Repo_head_after_colon_witness :
  Repo_head sample_env sample_loaded
  = Ok (Go.TrimSpace (lit " refs/heads/main" ++ [NL])).
Proof.
  apply (Repo_head_after_colon sample_env sample_loaded (lit "ref")
           (lit " refs/heads/main" ++ [NL]) []).
  - reflexivity.
  - vm_compute. intuition discriminate.
  - vm_compute. intuition discriminate.
  - left. reflexivity.
Defined.

(** X17.  On a HEAD file that can be read, [Repo.head] panics exactly when
    the file holds no colon, as the HEAD of a detached checkout does (a bare
    commit identifier): element 1 of the split does not exist.  With a colon
    in the file it returns. *)
Theorem Repo_head_panics_iff (env : Env) (r : Repo.t) (s : bytes) :
  ReadFile env (Repo.location r ++ HEAD_LOC) = Some s ->
  (Repo_head env r = Panic <-> ~ In COLON s)
  /\ (returns (Repo_head env r) <-> In COLON s).
Proof.
  intros Hr. unfold Repo_head. rewrite Hr.
  destruct (in_dec Byte.byte_eq_dec COLON s) as [Hin | Hno].
  - destruct (first_occurrence _ _ Hin) as (a & b & -> & Ha).
    rewrite (Split_found COLON a b Ha).
    destruct (Split_nonempty COLON b) as (l & ls & ->). cbn [nth_error].
    split; split; intros H; try assumption; try discriminate H.
    + contradiction.
    + apply returns_Ok.
  - rewrite (Split_none COLON s Hno). cbn [nth_error].
    split; split; intros H; try assumption; try reflexivity.
    + destruct (not_returns_Panic H).
    + contradiction.
Qed.

Lemma Repo_head_panics_iff_witness :
  (Repo_head detached_env sample_loaded = Panic <-> ~ In COLON (id_p1 ++ [NL]))
  /\ (returns (Repo_head detached_env sample_loaded)
      <-> In COLON (id_p1 ++ [NL])).
Proof.
  apply (Repo_head_panics_iff detached_env sample_loaded (id_p1 ++ [NL])).
  reflexivity.
Defined.




(** ** [parseCommit] reads by position *)

Lemma Split_nl_parent_like (ls : list ParentLine.t) (tail : bytes) :
  Forall parent_like_ok ls ->
  Go.Split_nl (concat (map (fun l => parent_like l ++ [NL]) ls) ++ tail)
  = map parent_like ls ++ Go.Split_nl tail.
Proof.
  induction 1 as [|l ls (_ & Hl) _ IH]; [reflexivity|].
  cbn [map concat].
  replace (((parent_like l ++ [NL])
              ++ concat (map (fun l0 => parent_like l0 ++ [NL]) ls)) ++ tail)
    with (parent_like l
            ++ NL :: (concat (map (fun l0 => parent_like l0 ++ [NL]) ls) ++ tail))
    by (rewrite <- !app_assoc; reflexivity).
  rewrite (Split_nl_line _ _ Hl), IH. reflexivity.
Qed.

Lemma parseCommit_loop_parent_like (ls : list ParentLine.t) :
  Forall parent_like_ok ls ->
  forall (lines acc : list bytes),
  parseCommit_loop (map parent_like ls ++ lines) acc
  = parseCommit_loop lines (acc ++ map ParentLine.id ls).
Proof.
  induction 1 as [|l ls (Hl & _) _ IH]; intros lines acc.
  - rewrite app_nil_r. reflexivity.
  - cbn [map app parseCommit_loop]. unfold slice_to, parent_like at 1 2.
    apply length_len in Hl.
    rewrite (slice_middle [] (lit "parent")
               ([ParentLine.sep l] ++ ParentLine.id l ++ ParentLine.junk l))
      by reflexivity.
    cbn [bind]. rewrite bytes_eqb_refl.
    replace (lit "parent" ++ [ParentLine.sep l] ++ ParentLine.id l
               ++ ParentLine.junk l)
      with ((lit "parent" ++ [ParentLine.sep l]) ++ ParentLine.id l
              ++ ParentLine.junk l)
      by (first [apply app_assoc | symmetry; apply app_assoc]).
    rewrite (slice_middle (lit "parent" ++ [ParentLine.sep l]) (ParentLine.id l)
               (ParentLine.junk l))
      by (rewrite ?Hl; reflexivity).
    cbn [bind]. rewrite IH, <- app_assoc. reflexivity.
Qed.

(** X19.  [parseCommit] reads by position and checks no label.  Whatever the
    first five bytes of the body and the byte after the 40-byte identifier
    are, that identifier is returned as the tree; a following line is taken
    as a parent line when its first six bytes are [parent], whatever its
    seventh byte, and its parent is bytes 7 to 47 of the line, whatever
    follows them; the run ends at the first line that does not begin with
    [parent]. *)
Theorem parseCommit_by_position (pfx T : bytes) (c : byte) (ls : list ParentLine.t)
        (hd tl : bytes) (obj : Object.t) :
  length pfx = 5%nat -> length T = 40%nat -> Forall parent_like_ok ls ->
  length hd = 6%nat -> ~ In NL hd -> hd <> lit "parent" ->
  Object.Content obj
  = pfx ++ T ++ [c] ++ concat (map (fun l => parent_like l ++ [NL]) ls)
        ++ hd ++ tl ->
  parseCommit obj = Ok (Commit.mk T (map ParentLine.id ls)).
Proof.
  intros Hp HT Hls Hl Hnl Hne HC. unfold parseCommit. rewrite HC.
  apply length_len in Hp. apply length_len in HT.
  set (rest := concat (map (fun l => parent_like l ++ [NL]) ls) ++ hd ++ tl).
  rewrite (slice_middle pfx T ([c] ++ rest)) by lia.
  cbn [bind]. unfold slice_from.
  replace (pfx ++ T ++ [c] ++ rest) with ((pfx ++ T ++ [c]) ++ rest ++ [])
    by (rewrite app_nil_r, <- !app_assoc; reflexivity).
  rewrite (slice_middle (pfx ++ T ++ [c]) rest []) by (lens; lia).
  cbn [bind]. unfold rest.
  rewrite (Split_nl_parent_like _ _ Hls), (parseCommit_loop_parent_like _ Hls).
  destruct (Split_nl_head hd tl Hnl) as (l & lines & E). rewrite E.
  cbn [parseCommit_loop]. unfold slice_to.
  rewrite (slice_middle [] hd l) by (rewrite ?(length_len _ _ Hl); reflexivity).
  cbn [bind]. rewrite (bytes_eqb_neq _ _ Hne). reflexivity.
Qed.

Lemma parseCommit_by_position_witness :
  parseCommit
    (commit_object (lit "5566")
       (lit "TREE=" ++ id_t ++ lit ";"
          ++ (lit "parents" ++ id_p1 ++ lit " first" ++ [NL])
          ++ lit "author A" ++ [NL]))
  = Ok (Commit.mk id_t [id_p1]).
Proof.
  apply (parseCommit_by_position (lit "TREE=") id_t ";"
           [ParentLine.mk "s" id_p1 (lit " first")]
           (lit "author") (lit " A" ++ [NL])
           (commit_object (lit "5566")
              (lit "TREE=" ++ id_t ++ lit ";"
                 ++ (lit "parents" ++ id_p1 ++ lit " first" ++ [NL])
                 ++ lit "author A" ++ [NL]))).
  - reflexivity.
  - reflexivity.
  - repeat constructor. vm_compute. intuition discriminate.
  - reflexivity.
  - vm_compute. intuition discriminate.
  - vm_compute. discriminate.
  - reflexivity.
Defined.

(** X20.  A commit body shorter than 46 bytes makes [parseCommit] panic,
    whatever it holds: the slices [5:45] and [46:] do not fit. *)
Theorem parseCommit_short_body_panics (obj : Object.t) :
  len (Object.Content obj) < 46 -> parseCommit obj = Panic.
Proof.
  intros H. unfold parseCommit, slice_from.
  destruct (slice_cases (Object.Content obj) 5 45) as [-> | (x & ->)];
    [reflexivity|].
  cbn [bind]. rewrite slice_panic by lia. reflexivity.
Qed.

Lemma parseCommit_short_body_panics_witness :
  parseCommit (commit_object (lit "5566") (lit "tree " ++ id_t)) = Panic.
Proof.
  apply (parseCommit_short_body_panics
           (commit_object (lit "5566") (lit "tree " ++ id_t))).
  vm_compute. reflexivity.
Defined.
